(** * MySQL Router: metadata cache, connection admission, master-key file and
      password generation, embedded from the C++ sources.

    Layout: the first half of the file holds the embedding (one block per
    source file), the second half the lemmas and theorems about it. *)

From Stdlib Require Import ZArith NArith List Ascii String Lia Permutation.
From Stdlib.Strings Require Import Byte.
From stdpp Require Import base gmap strings list fin_maps pretty.
From stdpp Require Import sorting.

Local Open Scope string_scope.
Local Open Scope N_scope.

(* ===================================================================== *)
(** * Part I.  The embedding                                              *)
(* ===================================================================== *)

(** ** Common conventions *)

(** [unsigned int] is 32 bits wide, [size_t], [unsigned long long] and
    [time_t] are 64 bits wide (LP64). *)
Definition UINT_MODULUS : N := 2 ^ 32.
Definition SIZE_MODULUS : Z := (2 ^ 64)%Z.

(** [static_cast<unsigned int>(i)] of a (signed) [int]. *)
Definition to_unsigned_int (i : Z) : N := Z.to_N (i mod 2 ^ 32).

(** Exceptions the modelled code raises. *)
Inductive exception : Type :=
  | metadata_error (what : string)
  | invalid_argument (what : string)
  | runtime_error (what : string)
  | system_error (what : string)
  | out_of_range (what : string)
  | invalid_master_keyfile (what : string).

(** [e.what()] *)
Definition what (e : exception) : string :=
  match e with
  | metadata_error w | invalid_argument w | runtime_error w
  | system_error w | out_of_range w | invalid_master_keyfile w => w
  end.

Inductive result (A : Type) : Type :=
  | Ok (a : A)
  | Throw (e : exception).
Arguments Ok {A} a.
Arguments Throw {A} e.

(** A nullable C string ([const char *]), as the rows of a result set carry. *)
Definition cstr := option string.

(** [get_string] of cluster_metadata.cc: the empty string for [nullptr]. *)
Definition get_string (input_str : cstr) : string :=
  match input_str with
  | None => ""
  | Some s => s
  end.

(** [std::string::find(char)]: index of the first occurrence, [None] for
    [npos]. *)
Fixpoint find (c : ascii) (s : string) : option nat :=
  match s with
  | EmptyString => None
  | String a rest =>
      if Ascii.eqb a c then Some 0%nat
      else match find c rest with
           | Some p => Some (S p)
           | None => None
           end
  end.

(** [s.substr(0, p)]. *)
Fixpoint substr_to (s : string) (p : nat) : string :=
  match p, s with
  | S p', String a rest => String a (substr_to rest p')
  | _, _ => EmptyString
  end.

(** [s.substr(p)] for [p <= s.size()]. *)
Fixpoint substr_from (s : string) (p : nat) : string :=
  match p, s with
  | S p', String _ rest => substr_from rest p'
  | _, _ => s
  end.

(* --------------------------------------------------------------------- *)
(** ** metadata_cache/src/cluster_metadata.cc                             *)
(* --------------------------------------------------------------------- *)

Module ServerMode.
Inductive t : Type := ReadWrite | ReadOnly | Unavailable.
End ServerMode.

Module ReplicasetStatus.
Inductive t : Type := AvailableWritable | AvailableReadOnly | Unavailable.
End ReplicasetStatus.

Module GR_State.
Inductive t : Type := Online | Recovering | Unreachable | Offline | Other.
End GR_State.

Module GR_Role.
Inductive t : Type := Primary | Secondary.
End GR_Role.

(** The value [std::strtof] yields is kept symbolic: the text it was read
    from, or the literal [0] used for a NULL column. *)
Inductive float_value : Type :=
  | float_zero
  | strtof (text : string).

(** The fields [host], [port] and [role] of the source carry the prefix
    [gr_] here, [ManagedInstance] having fields of the same names. *)
Record GroupReplicationMember : Type := {
  member_id : string;
  gr_host : string;
  gr_port : N;
  state : GR_State.t;
  gr_role : GR_Role.t;
}.

Record ManagedInstance : Type := {
  replicaset_name : string;
  mysql_server_uuid : string;
  role : string;
  mode : ServerMode.t;
  weight : float_value;
  version_token : N;
  location : string;
  host : string;
  port : N;
  xport : N;
}.

Definition set_mode (member : ManagedInstance) (m : ServerMode.t)
  : ManagedInstance :=
  {| replicaset_name := replicaset_name member;
     mysql_server_uuid := mysql_server_uuid member;
     role := role member;
     mode := m;
     weight := weight member;
     version_token := version_token member;
     location := location member;
     host := host member;
     port := port member;
     xport := xport member |}.

Record ManagedReplicaSet : Type := {
  name : string;
  members : list ManagedInstance;
  single_primary_mode : bool;
}.

(** The two locals the member loop of [check_replicaset_status] updates. *)
Record quorum_scan : Type := {
  online_count : N;              (* unsigned int *)
  have_primary_instance : bool;
}.

(** [online_count++] on an [unsigned int]. *)
Definition incr_uint (n : N) : N := (n + 1) mod UINT_MODULUS.

(** One pass of the body of [for (auto &member : instances)]. *)
Definition check_member
    (member_status : gmap string GroupReplicationMember)
    (member : ManagedInstance) (acc : quorum_scan)
  : ManagedInstance * quorum_scan :=
  match member_status !! mysql_server_uuid member with
  | Some status =>
      match state status with
      | GR_State.Online =>
          match gr_role status with
          | GR_Role.Primary =>
              (set_mode member ServerMode.ReadWrite,
               {| online_count := incr_uint (online_count acc);
                  have_primary_instance := true |})
          | GR_Role.Secondary =>
              (set_mode member ServerMode.ReadOnly,
               {| online_count := incr_uint (online_count acc);
                  have_primary_instance := have_primary_instance acc |})
          end
      | GR_State.Recovering
      | GR_State.Unreachable
      | GR_State.Offline
      | GR_State.Other =>
          (set_mode member ServerMode.Unavailable, acc)
      end
  | None => (set_mode member ServerMode.Unavailable, acc)
  end.

Fixpoint check_members
    (member_status : gmap string GroupReplicationMember)
    (instances : list ManagedInstance) (acc : quorum_scan)
  : list ManagedInstance * quorum_scan :=
  match instances with
  | [] => ([], acc)
  | member :: rest =>
      let '(member', acc') := check_member member_status member acc in
      let '(rest', acc'') := check_members member_status rest acc' in
      (member' :: rest', acc'')
  end.

(** [ClusterMetadata::check_replicaset_status]: the vector is updated in
    place, so the updated vector is returned next to the status.  The first
    loop of the source only logs and is left out. *)
Definition check_replicaset_status
    (instances : list ManagedInstance)
    (member_status : gmap string GroupReplicationMember)
  : list ManagedInstance * ReplicasetStatus.t :=
  let '(instances', acc) :=
    check_members member_status instances
      {| online_count := 0; have_primary_instance := false |} in
  let have_quorum :=
    N.ltb (N.of_nat (size member_status) / 2) (online_count acc) in
  (instances',
   if have_quorum then
     if have_primary_instance acc
     then ReplicasetStatus.AvailableWritable
     else ReplicasetStatus.AvailableReadOnly
   else ReplicasetStatus.Unavailable).

(** *** Vocabulary of the reconciliation table

    The next definitions follow the wording of the specification ("Online +
    Primary", "counted online") and are what the theorems compare the code
    against. *)

(** The catalog member is reported Online by the status mapping. *)
Definition reported_online
    (member_status : gmap string GroupReplicationMember)
    (member : ManagedInstance) : bool :=
  match member_status !! mysql_server_uuid member with
  | Some status =>
      match state status with GR_State.Online => true | _ => false end
  | None => false
  end.

(** The catalog member is reported Online with role Primary. *)
Definition reported_online_primary
    (member_status : gmap string GroupReplicationMember)
    (member : ManagedInstance) : bool :=
  match member_status !! mysql_server_uuid member with
  | Some status =>
      match state status, gr_role status with
      | GR_State.Online, GR_Role.Primary => true
      | _, _ => false
      end
  | None => false
  end.

(** The number of catalog members reported Online. *)
Definition spec_online_count
    (member_status : gmap string GroupReplicationMember)
    (instances : list ManagedInstance) : nat :=
  length (List.filter (reported_online member_status) instances).

(** The mode the reconciliation table of the specification assigns. *)
Definition expected_mode
    (member_status : gmap string GroupReplicationMember)
    (member : ManagedInstance) : ServerMode.t :=
  match member_status !! mysql_server_uuid member with
  | Some status =>
      match state status, gr_role status with
      | GR_State.Online, GR_Role.Primary => ServerMode.ReadWrite
      | GR_State.Online, GR_Role.Secondary => ServerMode.ReadOnly
      | _, _ => ServerMode.Unavailable
      end
  | None => ServerMode.Unavailable
  end.

(** *** [update_replicaset_status]

    What the servers answer while the member loop runs.  The [nat] is the
    position of the candidate in the loop, so that two visits of one address
    may be answered differently. *)
Record GRWorld : Type := {
  (** [metadata_connection_->get_address()] *)
  get_address : string;
  (** [DIM::new_MySQLSession()]; [false] when it throws [std::logic_error] *)
  new_MySQLSession : nat → bool;
  (** [MySQLSession::connect(host, port, ...)]; [false] when it throws
      [MySQLSession::Error] *)
  session_connect : nat → string → N → bool;
  (** [fetch_group_replication_members(connection, single_primary_mode)] on
      the connection to the given address: the status map and the value left
      in [single_primary_mode], or [None] when it throws [metadata_error] *)
  fetch_group_replication_members :
    nat → string → option (gmap string GroupReplicationMember * bool);
}.

(** [mi.host == "localhost" ? "127.0.0.1" : mi.host] *)
Definition canonical_host (mi : ManagedInstance) : string :=
  if String.eqb (host mi) "localhost" then "127.0.0.1" else host mi.

(** [ClusterMetadata::do_connect] *)
Definition do_connect (w : GRWorld) (i : nat) (mi : ManagedInstance) : bool :=
  session_connect w i (canonical_host mi) (port mi).

Definition mi_addr (mi : ManagedInstance) : string :=
  canonical_host mi ++ ":" ++ pretty (port mi).

(** What one candidate of the member loop comes to, up to and including
    [fetch_group_replication_members]. *)
Inductive candidate : Type :=
  | SessionNotCreated            (* logic_error, rethrown as metadata_error *)
  | ConnectFailed                (* "server down, next!" *)
  | FetchFailed                  (* "faulty server, next!", either catch *)
  | Reported (member_status : gmap string GroupReplicationMember)
             (single_primary : bool).

Definition try_candidate (w : GRWorld) (i : nat) (mi : ManagedInstance)
  : candidate :=
  let fetch :=
    match fetch_group_replication_members w i (mi_addr mi) with
    | Some (member_status, single_primary) =>
        Reported member_status single_primary
    | None => FetchFailed
    end in
  if String.eqb (mi_addr mi) (get_address w) then fetch
  else if negb (new_MySQLSession w i) then SessionNotCreated
  else if negb (do_connect w i mi) then ConnectFailed
  else fetch.

(** The state of the member loop when it is left. *)
Record loop_exit : Type := {
  exit_members : list ManagedInstance;
  exit_single_primary_mode : bool;
  found_quorum : bool;
}.

(** [for (const ManagedInstance& mi : replicaset.members)]: [mi] is read
    from the vector [check_replicaset_status] updates in place, hence the
    index into the current vector.  [fuel] bounds the iterations left. *)
Fixpoint member_loop (w : GRWorld) (fuel i : nat)
    (members : list ManagedInstance) (spm : bool) : result loop_exit :=
  let no_quorum :=
    Ok {| exit_members := members; exit_single_primary_mode := spm;
          found_quorum := false |} in
  match fuel with
  | O => no_quorum
  | S fuel' =>
      match members !! i with
      | None => no_quorum
      | Some mi =>
          match try_candidate w i mi with
          | SessionNotCreated =>
              Throw (metadata_error "could not initialise MySQL connection")
          | ConnectFailed | FetchFailed =>
              member_loop w fuel' (S i) members spm
          | Reported member_status single_primary =>
              let '(members', status) :=
                check_replicaset_status members member_status in
              match status with
              | ReplicasetStatus.AvailableWritable
              | ReplicasetStatus.AvailableReadOnly =>
                  Ok {| exit_members := members';
                        exit_single_primary_mode := single_primary;
                        found_quorum := true |}
              | ReplicasetStatus.Unavailable =>
                  member_loop w fuel' (S i) members' spm
              end
          end
      end
  end.

(** [ClusterMetadata::update_replicaset_status]: the replicaset is updated in
    place; it is returned together with the local [found_quorum]. *)
Definition update_replicaset_status (w : GRWorld)
    (replicaset : ManagedReplicaSet) : result (ManagedReplicaSet * bool) :=
  match member_loop w (length (members replicaset)) 0 (members replicaset)
          (single_primary_mode replicaset) with
  | Throw e => Throw e
  | Ok ex =>
      Ok ({| name := name replicaset;
             members := if found_quorum ex then exit_members ex else [];
             single_primary_mode := exit_single_primary_mode ex |},
          found_quorum ex)
  end.

(** The candidate at position [i] yields quorum: it can be reached, answers
    the group-replication queries, and the status computed from its answer
    is not [Unavailable]. *)
Definition yields_quorum (w : GRWorld) (instances : list ManagedInstance)
    (i : nat) : bool :=
  match instances !! i with
  | Some mi =>
      match try_candidate w i mi with
      | Reported member_status _ =>
          match (check_replicaset_status instances member_status).2 with
          | ReplicasetStatus.Unavailable => false
          | _ => true
          end
      | _ => false
      end
  | None => false
  end.

(** The member vector with the modes blanked: two vectors with the same
    image differ in the modes only. *)
Definition erase_modes (l : list ManagedInstance) : list ManagedInstance :=
  map (λ member, set_mode member ServerMode.Unavailable) l.

(** No session has to be created that the factory refuses to create. *)
Definition sessions_created (w : GRWorld) (instances : list ManagedInstance)
  : Prop :=
  ∀ i mi, instances !! i = Some mi → try_candidate w i mi ≠ SessionNotCreated.

(** *** [fetch_instances_from_metadata_server] and [fetch_instances] *)

(** A row of a result set: [std::vector<const char*>]. *)
Definition Row := list cstr.

(** What the row consumer does with one row, before it touches the map. *)
Inductive row_outcome : Type :=
  | WrongArity (size : nat)          (* throws metadata_error *)
  | Escaped                          (* std::runtime_error outside the try *)
  | Skipped                          (* warning logged, "next row" *)
  | NewInstance (s : ManagedInstance).

Section RowConsumer.

(** [mysqlrouter::strtoi_checked] is declared in mysqlrouter/utils.h, which
    is not part of the sources at hand; it is a parameter here.  [None]
    stands for a [std::runtime_error] leaving it. *)
Variable strtoi_checked : string → option Z.

(** The mode a default-constructed [ManagedInstance] starts with. *)
Variable initial_mode : ServerMode.t.

(** [host[:port]] as both address columns are read: the host and, when a
    colon is there, what [strtoi_checked] makes of the text after it. *)
Definition split_address (uri : string) (default_port : N)
  : option (string * N) :=
  match find ":" uri with
  | Some p =>
      match strtoi_checked (substr_from uri (S p)) with
      | Some n => Some (substr_to uri p, to_unsigned_int n)
      | None => None
      end
  | None => Some (uri, default_port)
  end.

(** [*row[7]]: the column is there and is not the empty string. *)
Definition present (column : cstr) : bool :=
  match column with
  | Some (String _ _) => true
  | _ => false
  end.

(** The body of [result_processor] up to [replicaset_map[...]]. *)
Definition read_row (row : Row) : row_outcome :=
  match row with
  | [r0; r1; r2; r3; r4; r5; r6; r7] =>
      let version :=
        match r4 with
        | Some text => option_map to_unsigned_int (strtoi_checked text)
        | None => Some 0
        end in
      match version with
      | None => Escaped
      | Some version =>
          match split_address (get_string r6) 3306 with
          | None => Skipped
          | Some (classic_host, classic_port) =>
              let make h xp :=
                NewInstance
                  {| replicaset_name := get_string r0;
                     mysql_server_uuid := get_string r1;
                     role := get_string r2;
                     mode := initial_mode;
                     weight := match r3 with
                               | Some text => strtof text
                               | None => float_zero
                               end;
                     version_token := version;
                     location := get_string r5;
                     host := h;
                     port := classic_port;
                     xport := xp |} in
              if present r7 then
                match split_address (get_string r7) 33060 with
                | None => Skipped
                | Some (x_host, x_port) => make x_host x_port
                end
              else make classic_host ((classic_port * 10) mod UINT_MODULUS)
          end
      end
  | _ => WrongArity (length row)
  end.

(** [replicaset_map[s.replicaset_name]] followed by the three updates. *)
Definition add_instance (replicaset_map : gmap string ManagedReplicaSet)
    (s : ManagedInstance) : gmap string ManagedReplicaSet :=
  let rset_members :=
    match replicaset_map !! replicaset_name s with
    | Some rset => members rset
    | None => []
    end in
  <[replicaset_name s :=
      {| name := replicaset_name s;
         members := rset_members ++ [s];
         single_primary_mode := true |}]> replicaset_map.

(** The lambda [result_processor]; it always asks for the next row. *)
Definition result_processor (replicaset_map : gmap string ManagedReplicaSet)
    (row : Row) : result (gmap string ManagedReplicaSet) :=
  match read_row row with
  | WrongArity n =>
      Throw (metadata_error
               ("Unexpected number of fields in the resultset. "
                ++ "Expected = 8, got = " ++ pretty n))
  | Escaped => Throw (runtime_error "strtoi_checked")
  | Skipped => Ok replicaset_map
  | NewInstance s => Ok (add_instance replicaset_map s)
  end.

(** [MySQLSession::query(query, processor)]: the rows the server delivers,
    and the [MySQLSession::Error] that ends the query, if any. *)
Record query_run : Type := {
  delivered : list Row;
  session_error : option string;
}.

Fixpoint process_rows (replicaset_map : gmap string ManagedReplicaSet)
    (rows : list Row) : result (gmap string ManagedReplicaSet) :=
  match rows with
  | [] => Ok replicaset_map
  | row :: rest =>
      match result_processor replicaset_map row with
      | Ok replicaset_map' => process_rows replicaset_map' rest
      | Throw e => Throw e
      end
  end.

Definition fetch_instances_from_metadata_server (q : query_run)
  : result (gmap string ManagedReplicaSet) :=
  match process_rows ∅ (delivered q) with
  | Throw e => Throw e
  | Ok replicaset_map =>
      match session_error q with
      | Some what => Throw (metadata_error what)
      | None => Ok replicaset_map
      end
  end.

(** [for (auto &&rs : replicasets) update_replicaset_status(...)], the
    entries taken in the order [todo] lists them. *)
Fixpoint update_all (world : string → GRWorld)
    (todo : list (string * ManagedReplicaSet))
    (replicasets : gmap string ManagedReplicaSet)
  : result (gmap string ManagedReplicaSet) :=
  match todo with
  | [] => Ok replicasets
  | (rs_name, rs) :: rest =>
      match update_replicaset_status (world rs_name) rs with
      | Throw e => Throw e
      | Ok (rs', _) => update_all world rest (<[rs_name := rs']> replicasets)
      end
  end.

(** [ClusterMetadata::fetch_instances]: the snapshot handed to the cache. *)
Definition fetch_instances (world : string → GRWorld) (q : query_run)
  : result (gmap string ManagedReplicaSet) :=
  match fetch_instances_from_metadata_server q with
  | Throw e => Throw e
  | Ok replicasets => update_all world (map_to_list replicasets) replicasets
  end.

End RowConsumer.

(** *** Vocabulary for the rows of the catalog query *)

(** [row[6]] and [row[7]]. *)
Definition classic_addr (row : Row) : cstr := nth 6 row None.
Definition x_addr (row : Row) : cstr := nth 7 row None.

(** The host part of [host[:port]]. *)
Definition host_part (uri : string) : string :=
  match find ":" uri with
  | Some p => substr_to uri p
  | None => uri
  end.

(** A well-formed row: eight columns; every number the consumer has to read
    is read without error; a classic port that is given is a port number
    (1..65535). *)
Definition well_formed_row (strtoi_checked : string → option Z) (row : Row)
  : Prop :=
  ∃ r0 r1 r2 r3 r4 r5 r6 r7 : cstr,
    row = [r0; r1; r2; r3; r4; r5; r6; r7]
    ∧ (∀ text, r4 = Some text → is_Some (strtoi_checked text))
    ∧ (∀ p, find ":" (get_string r6) = Some p →
         ∃ n, strtoi_checked (substr_from (get_string r6) (S p)) = Some n
              ∧ (1 ≤ n ≤ 65535)%Z)
    ∧ (present r7 = true →
       ∀ p, find ":" (get_string r7) = Some p →
         is_Some (strtoi_checked (substr_from (get_string r7) (S p)))).

(** *** The catalog and the group view of tests/test_failover.cc *)

Definition test_instance (uuid : string) (p xp : N) : ManagedInstance :=
  {| replicaset_name := "default"; mysql_server_uuid := uuid; role := "HA";
     mode := ServerMode.Unavailable; weight := float_zero;
     version_token := 0; location := ""; host := "localhost";
     port := p; xport := xp |}.

Definition test_instances : list ManagedInstance :=
  [ test_instance "uuid-server1" 3000 30000;
    test_instance "uuid-server2" 3001 30010;
    test_instance "uuid-server3" 3002 30020 ].

Definition test_gr_member (uuid : string) (p : N) (st : GR_State.t)
    (r : GR_Role.t) : GroupReplicationMember :=
  {| member_id := uuid; gr_host := "somehost"; gr_port := p;
     state := st; gr_role := r |}.

(** [expect_group_members_1]: all three Online, uuid-server1 Primary. *)
Definition test_member_status : gmap string GroupReplicationMember :=
  <["uuid-server1" :=
      test_gr_member "uuid-server1" 3000 GR_State.Online GR_Role.Primary]>
  (<["uuid-server2" :=
      test_gr_member "uuid-server2" 3001 GR_State.Online GR_Role.Secondary]>
  (<["uuid-server3" :=
      test_gr_member "uuid-server3" 3002 GR_State.Online GR_Role.Secondary]>
   ∅)).

Definition test_replicaset : ManagedReplicaSet :=
  {| name := "default"; members := test_instances;
     single_primary_mode := true |}.

(** Only uuid-server1 is Online, the two others are unreachable. *)
Definition test_member_status_minority
  : gmap string GroupReplicationMember :=
  <["uuid-server1" :=
      test_gr_member "uuid-server1" 3000 GR_State.Online GR_Role.Primary]>
  (<["uuid-server2" :=
      test_gr_member "uuid-server2" 3001 GR_State.Unreachable
        GR_Role.Secondary]>
  (<["uuid-server3" :=
      test_gr_member "uuid-server3" 3002 GR_State.Unreachable
        GR_Role.Secondary]>
   ∅)).

(** Every member can be reached and answers with the given group view; the
    metadata session is the one to the first member. *)
Definition test_world (view : gmap string GroupReplicationMember) : GRWorld :=
  {| get_address := "127.0.0.1:3000";
     new_MySQLSession := λ _, true;
     session_connect := λ _ _ _, true;
     fetch_group_replication_members := λ _ _, Some (view, true) |}.

Definition test_world_steady : GRWorld := test_world test_member_status.
Definition test_world_no_quorum : GRWorld :=
  test_world test_member_status_minority.

(** *** Rows and a number reader for the examples *)

Definition digit_value (c : ascii) : option Z :=
  let n := Z.of_N (N_of_ascii c) in
  if ((48 <=? n) && (n <=? 57))%Z then Some (n - 48)%Z else None.

Fixpoint read_digits (acc : Z) (s : string) : option Z :=
  match s with
  | EmptyString => Some acc
  | String c rest =>
      match digit_value c with
      | Some d => read_digits (acc * 10 + d) rest
      | None => None
      end
  end.

(** Reads an unsigned decimal number; anything else is an error. *)
Definition test_strtoi_checked (s : string) : option Z :=
  match s with
  | EmptyString => None
  | _ => read_digits 0 s
  end.

(** A row with neither a classic port nor an extended address. *)
Definition test_row_defaults : Row :=
  [Some "default"; Some "uuid-server1"; Some "HA"; None; None; Some "";
   Some "localhost"; None].

(** A row whose two addresses name different hosts. *)
Definition test_row_x : Row :=
  [Some "default"; Some "uuid-server1"; Some "HA"; None; None; Some "";
   Some "localhost:3000"; Some "xhost:30000"].

Definition test_row_x_instance : ManagedInstance :=
  {| replicaset_name := "default"; mysql_server_uuid := "uuid-server1";
     role := "HA"; mode := ServerMode.Unavailable; weight := float_zero;
     version_token := 0; location := ""; host := "xhost";
     port := 3000; xport := 30000 |}.

(* --------------------------------------------------------------------- *)
(** ** routing/src/mysql_routing.cc                                       *)
(* --------------------------------------------------------------------- *)

Module Routing.

(** Modelled from the spec: the entry type of [conn_error_counters_] is
    declared in mysql_routing.h, which is not part of the sources at hand;
    the specification gives it as [count: u32] and
    [last_attempt: unix_seconds].  [std::map::operator[]] value-initialises
    a missing entry, that is, to zeros. *)
Record ConnErrorEntry : Type := {
  count : N;
  last_attempt : Z;       (* time_t *)
}.

Definition fresh_entry : ConnErrorEntry :=
  {| count := 0; last_attempt := 0 |}.

(** A client address, [std::array<uint8_t, 16>], read as one 128-bit
    number. *)
Definition ip_array := N.

(** The members of [MySQLRouting] the admission checks read or write. *)
Record MySQLRouting : Type := {
  name : string;
  max_connections_ : Z;                    (* int *)
  max_connect_errors_ : N;                 (* unsigned long long *)
  max_connect_errors_timeout_ : N;         (* unsigned long long *)
  info_active_routes_ : Z;                 (* std::atomic<uint16_t> *)
  conn_error_counters_ : gmap N ConnErrorEntry;
}.

Definition set_counters (r : MySQLRouting)
    (counters : gmap N ConnErrorEntry) : MySQLRouting :=
  {| name := name r;
     max_connections_ := max_connections_ r;
     max_connect_errors_ := max_connect_errors_ r;
     max_connect_errors_timeout_ := max_connect_errors_timeout_ r;
     info_active_routes_ := info_active_routes_ r;
     conn_error_counters_ := counters |}.

(** [conn_error_counters_[ip]]: the entry, and the map with the entry
    inserted if it was missing. *)
Definition at_ip (counters : gmap N ConnErrorEntry) (ip : ip_array)
  : ConnErrorEntry * gmap N ConnErrorEntry :=
  match counters !! ip with
  | Some e => (e, counters)
  | None => (fresh_entry, <[ip := fresh_entry]> counters)
  end.

(** [size_t timediff = curtime - last_attempt]. *)
Definition timediff (curtime last : Z) : N :=
  Z.to_N ((curtime - last) mod SIZE_MODULUS).

(** [MySQLRouting::check_client_errors_time]; [curtime] is what
    [std::time(nullptr)] returns. *)
Definition check_client_errors_time (r : MySQLRouting) (curtime : Z)
    (client_ip_array : ip_array) : bool * MySQLRouting :=
  if max_connect_errors_timeout_ r =? 0 then (false, r)
  else
    let '(e, counters) := at_ip (conn_error_counters_ r) client_ip_array in
    if max_connect_errors_timeout_ r <? timediff curtime (last_attempt e)
    then
      (true,
       set_counters r
         (<[client_ip_array :=
              {| count := 0; last_attempt := last_attempt e |}]> counters))
    else (false, set_counters r counters).

(** [MySQLRouting::block_client_host], without the logging and the call
    into the protocol object. *)
Definition block_client_host (r : MySQLRouting) (curtime : Z)
    (client_ip_array : ip_array) : bool * MySQLRouting :=
  let '(e, counters) := at_ip (conn_error_counters_ r) client_ip_array in
  let count' := (count e + 1) mod UINT_MODULUS in
  (max_connect_errors_ r <=? count',
   set_counters r
     (<[client_ip_array :=
          {| count := count'; last_attempt := curtime |}]> counters)).

(** What the acceptor does to a client socket. *)
Inductive effect : Type :=
  | send_error (fd : Z) (code : N) (message sqlstate route : string)
  | close (fd : Z)
  | launch_worker (fd : Z).

(** The body of the acceptor loop of [start_acceptor] from the first
    admission check on, for one accepted client.  [peer] is
    [get_peer_name(sock_client).first]; [nodelay_set] tells whether
    [setsockopt(TCP_NODELAY)] succeeded. *)
Definition accept_client (r : MySQLRouting) (curtime : Z) (sock_client : Z)
    (client_ip : ip_array) (peer : string) (is_tcp nodelay_set : bool)
  : list effect * MySQLRouting :=
  let '(e, counters) := at_ip (conn_error_counters_ r) client_ip in
  let r1 := set_counters r counters in
  let '(blocked, r2) :=
    if max_connect_errors_ r <=? count e
    then
      let '(reset, r') := check_client_errors_time r1 curtime client_ip in
      (negb reset, r')
    else (false, r1) in
  if blocked then
    ([send_error sock_client 1129
        ("Too many connection errors from " ++ peer) "HY000" (name r);
      close sock_client], r2)
  else if (max_connections_ r <=? info_active_routes_ r)%Z then
    ([send_error sock_client 1040 "Too many connections" "HY000" (name r);
      close sock_client], r2)
  else if is_tcp && negb nodelay_set then ([], r2)
  else ([launch_worker sock_client], r2).


(** The entry [conn_error_counters_[ip]] reads. *)
Definition entry_of (r : MySQLRouting) (ip : ip_array) : ConnErrorEntry :=
  (at_ip (conn_error_counters_ r) ip).1.



(** A routing instance for the examples: one error allowed, the given
    time-out, and one client address with one error on record, made at
    time 100. *)
Definition test_ip : ip_array := 1.

Definition test_routing (timeout : N) : MySQLRouting :=
  {| name := "routing:test";
     max_connections_ := 512;
     max_connect_errors_ := 1;
     max_connect_errors_timeout_ := timeout;
     info_active_routes_ := 0;
     conn_error_counters_ :=
       {[ test_ip := {| count := 1; last_attempt := 100 |} ]} |}.

Definition test_routing_600 : MySQLRouting := test_routing 600.

End Routing.

(* --------------------------------------------------------------------- *)
(** ** mysql_harness/harness/src/random_generator.cc                      *)
(* --------------------------------------------------------------------- *)

Module RandomGenerator.

(** A [std::string] under construction, as its sequence of characters. *)
Abbreviation text := (list ascii).

Definition kMinPasswordLength : nat := 8.

Definition kAlphabetDigits : text := list_ascii_of_string "0123456789".
Definition kAlphabetLowercase : text :=
  list_ascii_of_string "abcdefghijklmnopqrstuvwxyz".
Definition kAlphabetUppercase : text :=
  list_ascii_of_string "ABCDEFGHIJKLMNOPQRSTUVWXYZ".
Definition kAlphabetSpecial : text :=
  list_ascii_of_string "~@#$^&*()-=+]}[{|;:.>,</?".

(** The enumerators [RandomGenerator::Alphabet...] are declared in
    random_generator.h, which is not part of the sources at hand; they are
    taken as parameters. *)
Record AlphabetContent : Type := {
  AlphabetDigits : N;
  AlphabetLowercase : N;
  AlphabetUppercase : N;
  AlphabetSpecial : N;
  AlphabetAll : N;
}.

(** [if (alphabet_mask & flag)] *)
Definition has_flag (alphabet_mask flag : N) : bool :=
  negb (N.land alphabet_mask flag =? 0).

(** The four single-class flags select exactly their own class, and
    [AlphabetAll] selects at least one class. *)
Definition flags_ok (A : AlphabetContent) : bool :=
  let flags := [AlphabetDigits A; AlphabetLowercase A;
                AlphabetUppercase A; AlphabetSpecial A] in
  forallb (λ '(i, f),
             forallb (λ '(j, g), Bool.eqb (has_flag f g) (i =? j)%nat)
                     (imap pair flags))
          (imap pair flags)
  && existsb (has_flag (AlphabetAll A)) flags.

(** The values upstream gives the enumerators. *)
Definition upstream_flags : AlphabetContent :=
  {| AlphabetDigits := 1; AlphabetLowercase := 2; AlphabetUppercase := 4;
     AlphabetSpecial := 8; AlphabetAll := 255 |}.

Section Generator.

Variable A : AlphabetContent.

(** [std::uniform_int_distribution] and [std::random_device] belong to
    the C++ library.  The standard fixes what a call [dist(rd)] of a
    distribution over [0, n - 1] returns, a number of that range, and leaves
    open how it is computed from the numbers of the device and how many of
    them it takes.  The results of the calls are therefore given from
    outside, and so are the numbers [std::rand] returns: [outcome k] decides
    the result of the [k]-th call [dist(rd)] of the run. *)
Variable outcome : nat → N.
Variable rand : nat → N.

Definition get_alphabet (alphabet_mask : N) : text :=
  ((if has_flag alphabet_mask (AlphabetDigits A)
    then kAlphabetDigits else [])
   ++ (if has_flag alphabet_mask (AlphabetLowercase A)
       then kAlphabetLowercase else [])
   ++ (if has_flag alphabet_mask (AlphabetUppercase A)
       then kAlphabetUppercase else [])
   ++ (if has_flag alphabet_mask (AlphabetSpecial A)
       then kAlphabetSpecial else []))%list.

(** [dist(rd)] for [dist(0, n - 1)], as the call number [pos] of the run:
    some number of the range.  Taking [outcome pos] modulo [n] gives every
    number of the range for a suitable [outcome], and no other; it says
    nothing of how the library arrives at the number. *)
Definition dist (n : nat) (pos : nat) : nat :=
  N.to_nat (outcome pos mod N.of_nat n).

(** [for (i = 0; i < length; i++) result += alphabet[dist(rd)]] *)
Fixpoint identifier_loop (alphabet : text) (length pos : nat) (acc : text)
  : text * nat :=
  match length with
  | O => (acc, pos)
  | S length' =>
      let c := nth (dist (List.length alphabet) pos) alphabet "000"%char in
      identifier_loop alphabet length' (S pos) (acc ++ [c])%list
  end.

(** [RandomGenerator::generate_identifier]; the second component is the
    number of calls [dist(rd)] made so far in the run. *)
Definition generate_identifier (length : nat) (alphabet_mask : N)
    (pos : nat) : result (text * nat) :=
  let alphabet := get_alphabet alphabet_mask in
  if (List.length alphabet <? 1)%nat then
    Throw (invalid_argument
             ("Wrong alphabet mask provided for generate_identifier("
              ++ pretty alphabet_mask ++ ")"))
  else Ok (identifier_loop alphabet length pos []).

(** [std::iter_swap(first + i, first + j)] *)
Definition iter_swap (i j : nat) (l : text) : text :=
  match l !! i, l !! j with
  | Some x, Some y => <[i := y]> (<[j := x]> l)
  | _, _ => l
  end.

(** [std::random_shuffle(first, last)] as libstdc++ has it:
    [for (i = first + 1; i != last; ++i)
       iter_swap(i, first + rand() % ((i - first) + 1))].
    [k] counts the calls of [rand]. *)
Fixpoint shuffle_loop (steps i k : nat) (l : text) : text :=
  match steps with
  | O => l
  | S steps' =>
      let j := N.to_nat (rand k mod N.of_nat (S i)) in
      shuffle_loop steps' (S i) (S k) (iter_swap i j l)
  end.

Definition random_shuffle (l : text) : text :=
  shuffle_loop (List.length l - 1) 1 0 l.

(** The monadic bind over [result] the next definition is written
    with. *)
Definition bind {X Y : Type} (m : result X) (f : X → result Y)
  : result Y :=
  match m with
  | Ok x => f x
  | Throw e => Throw e
  end.

(** [RandomGenerator::generate_strong_password].  [length] is unsigned;
    [length -= 4] happens only for [length >= 8]. *)
Definition generate_strong_password (length : nat) (pos : nat)
  : result (text * nat) :=
  if (length <? kMinPasswordLength)%nat then
    Throw (invalid_argument
             ("The password needs to be at least "
              ++ pretty kMinPasswordLength ++ " charactes long"))
  else
    bind (generate_identifier 1 (AlphabetDigits A) pos) (λ '(d, pos),
    bind (generate_identifier 1 (AlphabetLowercase A) pos) (λ '(l, pos),
    bind (generate_identifier 1 (AlphabetUppercase A) pos) (λ '(u, pos),
    bind (generate_identifier 1 (AlphabetSpecial A) pos) (λ '(s, pos),
    let result := (d ++ l ++ u ++ s)%list in
    let length := (length - List.length result)%nat in
    bind (generate_identifier length (AlphabetAll A) pos) (λ '(r, pos),
    Ok (random_shuffle (result ++ r)%list, pos)))))).

End Generator.

(** Sample results of the distribution and of [std::rand] for the
    examples. *)
Definition test_outcome (pos : nat) : N := N.of_nat (7 * pos + 3).
Definition test_rand (k : nat) : N := N.of_nat (5 * k + 1).
Definition sample_password : string := "Rv3CkJ?Q".

(** *** Character classes, by code point *)

Definition code (c : ascii) : N := N_of_ascii c.
Definition is_digit (c : ascii) : bool := (48 <=? code c) && (code c <=? 57).
Definition is_lowercase (c : ascii) : bool :=
  (97 <=? code c) && (code c <=? 122).
Definition is_uppercase (c : ascii) : bool :=
  (65 <=? code c) && (code c <=? 90).
Definition is_special (c : ascii) : bool :=
  existsb (Ascii.eqb c) kAlphabetSpecial.

End RandomGenerator.

(* --------------------------------------------------------------------- *)
(** ** mysql_harness/harness/src/keyring/keyring_manager.cc               *)
(* --------------------------------------------------------------------- *)

Module Keyring.

Local Open Scope list_scope.

Abbreviation bytes := (list byte).

(** *** The file system the master-key file lives in *)

Inductive node : Type :=
  | directory
  | file (mode : N) (content : bytes).

(** What a program does to the file system, in order. *)
Inductive fs_effect : Type :=
  | open_truncate (path : string)      (* open(O_WRONLY|O_CREAT|O_TRUNC) *)
  | chmod (path : string) (mode : N)
  | write (path : string) (data : bytes)
  | close_stream (path : string)
  | rename (source target : string).

Record world : Type := {
  fs : gmap string node;
  trace : list fs_effect;
}.

(** Computations that act on the file system and may throw. *)
Definition io (X : Type) : Type := world → result X * world.

#[export] Instance io_ret : MRet io := λ X x w, (Ok x, w).
#[export] Instance io_bind : MBind io := λ X Y f m w,
  match m w with
  | (Ok x, w') => f x w'
  | (Throw e, w') => (Throw e, w')
  end.

Definition throw {X : Type} (e : exception) : io X := λ w, (Throw e, w).

Definition log_effect (e : fs_effect) : io unit := λ w,
  (Ok (), {| fs := fs w; trace := trace w ++ [e] |}).

(** The mode bits of a file a stream creates (0666 under the usual
    umask 022), and the owner-only mode 0600. *)
Definition created_mode : N := 420.
Definition owner_only : N := 384.

(** [std::ofstream::open(path, binary|trunc|out)]: fails on a directory;
    otherwise the file is created or emptied.  [false] is [f.fail()]. *)
Definition ofstream_open (path : string) : io bool := λ w,
  match fs w !! path with
  | Some directory => (Ok false, w)
  | Some (file mode _) =>
      (Ok true, {| fs := <[path := file mode []]> (fs w);
                   trace := trace w ++ [open_truncate path] |})
  | None =>
      (Ok true, {| fs := <[path := file created_mode []]> (fs w);
                   trace := trace w ++ [open_truncate path] |})
  end.

(** Modelled from the spec: [make_file_private] is defined in
    filesystem.cc, which is not part of the sources at hand; the
    specification has it tighten the permissions to owner-only.  It throws
    when there is no such file. *)
Definition make_file_private (path : string) : io unit := λ w,
  match fs w !! path with
  | Some (file _ content) =>
      (Ok (), {| fs := <[path := file owner_only content]> (fs w);
                 trace := trace w ++ [chmod path owner_only] |})
  | _ => (Throw (runtime_error "chmod"), w)
  end.

(** [f.write(data, n)] on the stream opened on [path]. *)
Definition ofstream_write (path : string) (data : bytes) : io unit := λ w,
  match fs w !! path with
  | Some (file mode content) =>
      (Ok (), {| fs := <[path := file mode (content ++ data)]> (fs w);
                 trace := trace w ++ [write path data] |})
  | _ => (Ok (), w)
  end.

(** *** [MasterKeyFile] *)

(** [sizeof(kMasterKeyFileSignature)] is 5: "MRKF" and the terminating
    NUL. *)
Definition kMasterKeyFileSignature : bytes := [x4d; x52; x4b; x46; x00].

Record MasterKeyFile : Type := {
  path_ : string;
  entries_ : list (bytes * bytes);
}.

Definition byte_of (n : N) : byte :=
  match Byte.of_N (n mod 256) with
  | Some b => b
  | None => x00
  end.

(** The object representation of a [uint32_t] on a little-endian host. *)
Definition uint32_bytes (n : N) : bytes :=
  [byte_of n; byte_of (n / 256); byte_of (n / 65536);
   byte_of (n / 16777216)].

Fixpoint uint32_value (b : bytes) : N :=
  match b with
  | [] => 0
  | x :: rest => Byte.to_N x + 256 * uint32_value rest
  end.

(** The three writes of the loop body of [save]. *)
Definition save_entry (path : string) (entry : bytes * bytes) : io unit :=
  let length :=
    N.of_nat (length entry.1 + length entry.2 + 1) mod UINT_MODULUS in
  ofstream_write path (uint32_bytes length) ;;
  ofstream_write path (entry.1 ++ [x00]) ;;
  ofstream_write path entry.2.

Fixpoint save_entries (path : string) (entries : list (bytes * bytes))
  : io unit :=
  match entries with
  | [] => mret ()
  | entry :: rest => save_entry path entry ;; save_entries path rest
  end.

(** [MasterKeyFile::save] *)
Definition save (m : MasterKeyFile) : io unit :=
  opened ← ofstream_open (path_ m) ;
  if negb opened then
    throw (runtime_error
             ("Could not open master key file " ++ path_ m)%string)
  else
    (λ w, match make_file_private (path_ m) w with
          | (Throw _, w') =>
              (Throw (runtime_error
                        ("Could not set permissions of master key file "
                         ++ path_ m)%string), w')
          | ok => ok
          end) ;;
    ofstream_write (path_ m) kMasterKeyFileSignature ;;
    save_entries (path_ m) (entries_ m) ;;
    log_effect (close_stream (path_ m)).

(** An input stream: what is left to read, and the two state bits. *)
Record ifstream : Type := {
  rest : bytes;
  eofbit : bool;
  failbit : bool;
}.

(** [f.read(buf, n)], [buf] holding [before] beforehand: nothing is
    extracted from a stream that is not good; [n] characters are extracted
    when that many are left; otherwise what is left is extracted and
    [eofbit] and [failbit] are set.  The part of the buffer that is not
    written keeps what it held. *)
Definition read (f : ifstream) (n : nat) (before : bytes)
  : ifstream * bytes :=
  if eofbit f || failbit f then
    ({| rest := rest f; eofbit := eofbit f; failbit := true |}, before)
  else if (n <=? length (rest f))%nat then
    ({| rest := drop n (rest f); eofbit := false; failbit := false |},
     take n (rest f))
  else
    ({| rest := []; eofbit := true; failbit := true |},
     rest f ++ drop (length (rest f)) before).

(** [strncmp(a, b, n) == 0] *)
Fixpoint strncmp_equal (a b : bytes) (n : nat) : bool :=
  match n, a, b with
  | O, _, _ => true
  | S n', x :: a', y :: b' =>
      Byte.eqb x y && (Byte.eqb x x00 || strncmp_equal a' b' n')
  | S _, _, _ => false
  end.

(** [strlen(data.data())]: a [std::string] is followed by a NUL. *)
Fixpoint strlen (data : bytes) : nat :=
  match data with
  | [] => 0
  | x :: data' => if Byte.eqb x x00 then 0 else S (strlen data')
  end.

(** What the uninitialised automatic variables of [load] hold: the array
    [buf], and [length] in each pass of the loop. *)
Record indeterminate : Type := {
  buf_before : bytes;
  length_before : nat → bytes;
}.

(** [while (!f.eof()) { ... }] of [load]; [k] counts the passes.  [None]
    when [fuel] passes were not enough.  No state of the stream is looked at
    between the two reads or after them. *)
Fixpoint load_loop (fuel : nat) (u : indeterminate) (k : nat)
    (f : ifstream) (entries : list (bytes * bytes))
  : option (result (list (bytes * bytes))) :=
  if eofbit f then Some (Ok entries)
  else
    match fuel with
    | O => None
    | S fuel' =>
        let '(f1, length_bytes) :=
          read f 4 (resize 4 x00 (length_before u k)) in
        let length := N.to_nat (uint32_value length_bytes) in
        let '(f2, data) := read f1 length (replicate length x00) in
        let n := take (strlen data) data in
        (* data.substr(n.size() + 1) throws std::out_of_range beyond the
           end *)
        if (strlen data + 1 <=? List.length data)%nat then
          load_loop fuel' u (S k) f2
            (entries ++ [(n, drop (strlen data + 1) data)])
        else Some (Throw (out_of_range "basic_string::substr"))
    end.

(** [catch (std::exception &e)] around the loop of [load]. *)
Definition read_error (path : string) (e : exception) : exception :=
  runtime_error
    ("Error reading from master key file " ++ path ++ ": " ++ what e)%string.

(** [MasterKeyFile::load]; the stream is only read, so the file system is
    an argument and not a state. *)
Definition load (path : string) (files : gmap string node)
    (u : indeterminate) : result (list (bytes * bytes)) :=
  match files !! path with
  | Some directory =>
      Throw (invalid_master_keyfile (path ++ " is a directory")%string)
  | None => Throw (system_error ("Can't open file " ++ path)%string)
  | Some (file _ content) =>
      let f := {| rest := content; eofbit := false; failbit := false |} in
      let '(f1, buf) := read f 5 (resize 5 x00 (buf_before u)) in
      if negb (strncmp_equal buf kMasterKeyFileSignature 5) then
        Throw (invalid_master_keyfile
                 ("Invalid master key file " ++ path)%string)
      else
        match load_loop (S (length content)) u 0 f1 [] with
        | Some (Ok entries) => Ok entries
        | Some (Throw e) => Throw (read_error path e)
        | None => Throw (runtime_error "load: loop bound exceeded")
        end
  end.

(** The number the uninitialised [length] holds in pass [k]. *)
Definition stale_length (u : indeterminate) (k : nat) : nat :=
  N.to_nat (uint32_value (resize 4 x00 (length_before u k))).

(** *** Vocabulary of the properties *)

(** The layout the specification gives for the file. *)
Definition entry_layout (entry : bytes * bytes) : bytes :=
  uint32_bytes (N.of_nat (length entry.1 + length entry.2 + 1))
  ++ entry.1 ++ [x00] ++ entry.2.

Definition file_layout (entries : list (bytes * bytes)) : bytes :=
  kMasterKeyFileSignature ++ concat (map entry_layout entries).

(** The name holds no NUL, and the length fits the [u32] field. *)
Definition entry_ok (entry : bytes * bytes) : Prop :=
  (x00 ∉ fst entry)
  ∧ N.of_nat (length entry.1 + length entry.2 + 1) < UINT_MODULUS.

(** Write-temp-then-rename: the content goes to another path, which is
    then renamed over the target; the target itself is neither opened nor
    written. *)
Definition writes_temp_then_renames (target : string)
    (effects : list fs_effect) : Prop :=
  ∃ temp, temp ≠ target
          ∧ (rename temp target ∈ effects)
          ∧ (open_truncate target ∉ effects)
          ∧ (∀ data, write target data ∉ effects).

(** [first] happens before every effect that satisfies [later]. *)
Definition precedes (first : fs_effect) (later : fs_effect → Prop)
    (effects : list fs_effect) : Prop :=
  ∀ i e, effects !! i = Some e → later e →
         ∃ j, (j < i)%nat ∧ effects !! j = Some first.

Definition is_write_to (path : string) (e : fs_effect) : Prop :=
  ∃ data, e = write path data.

(** The bytes and the effects one pass of the loop of [save] adds. *)
Definition saved_entry (entry : bytes * bytes) : bytes :=
  uint32_bytes (N.of_nat (length entry.1 + length entry.2 + 1)
                  mod UINT_MODULUS)
  ++ (entry.1 ++ [x00]) ++ entry.2.

Definition entry_effects (path : string) (entry : bytes * bytes)
  : list fs_effect :=
  [write path (uint32_bytes (N.of_nat (length entry.1 + length entry.2 + 1)
                               mod UINT_MODULUS));
   write path (entry.1 ++ [x00]);
   write path entry.2].

Definition save_effects (m : MasterKeyFile) : list fs_effect :=
  [open_truncate (path_ m); chmod (path_ m) owner_only;
   write (path_ m) kMasterKeyFileSignature]
  ++ concat (map (entry_effects (path_ m)) (entries_ m))
  ++ [close_stream (path_ m)].

(** Examples: a key file with two entries, and a world without it. *)
Definition test_entries : list (bytes * bytes) :=
  [ ([x6b; x31], [x01; x00; x02]);         (* "k1" -> 01 00 02 *)
    ([x6b], [xff]) ].                      (* "k" -> ff *)

Definition test_keyfile : MasterKeyFile :=
  {| path_ := "/etc/mysqlrouter/mysqlrouter.key";
     entries_ := test_entries |}.

Definition empty_world : world := {| fs := ∅; trace := [] |}.

(** Uninitialised memory that happens to hold the number [g] in
    [length]. *)
Definition test_indeterminate (g : N) : indeterminate :=
  {| buf_before := []; length_before := λ _, uint32_bytes g |}.

End Keyring.

(* --------------------------------------------------------------------- *)
(** ** Further code of the same files                                     *)
(* --------------------------------------------------------------------- *)

(** *** cluster_metadata.cc *)

(** The instance is routed to: its mode is [ReadWrite] or [ReadOnly]. *)
Definition available (member : ManagedInstance) : bool :=
  match mode member with
  | ServerMode.Unavailable => false
  | _ => true
  end.

Definition is_read_write (member : ManagedInstance) : bool :=
  match mode member with
  | ServerMode.ReadWrite => true
  | _ => false
  end.

(** The vector [check_replicaset_status] leaves when it is given the status
    map [member_status]. *)
Definition reconciled
    (member_status : gmap string GroupReplicationMember)
    (instances : list ManagedInstance) : list ManagedInstance :=
  map (λ member, set_mode member (expected_mode member_status member))
      instances.

(** The loop of [ClusterMetadata::connect]: [do_connect] on one server
    after the other, left at the first success.  The result is whether the
    session is connected, and the servers that were tried, in order. *)
Fixpoint connect_loop (w : GRWorld) (i : nat)
    (metadata_servers : list ManagedInstance)
  : bool * list ManagedInstance :=
  match metadata_servers with
  | [] => (false, [])
  | mi :: rest =>
      if do_connect w i mi then (true, [mi])
      else
        let '(connected, tried) := connect_loop w (S i) rest in
        (connected, mi :: tried)
  end.

(** [ClusterMetadata::connect]: [false] as well when no session object
    could be had. *)
Definition connect (w : GRWorld) (metadata_servers : list ManagedInstance)
  : bool * list ManagedInstance :=
  if negb (new_MySQLSession w 0) then (false, [])
  else connect_loop w 0 metadata_servers.

(** The instances the row consumer builds from the rows, in row order. *)
Definition instances_of (strtoi_checked : string → option Z)
    (initial_mode : ServerMode.t) (rows : list Row) : list ManagedInstance :=
  omap (λ row, match read_row strtoi_checked initial_mode row with
               | NewInstance s => Some s
               | _ => None
               end) rows.

(** The members the map holds under a replicaset name, none when the name
    is not in the map. *)
Definition members_of (replicaset_map : gmap string ManagedReplicaSet)
    (rs_name : string) : list ManagedInstance :=
  match replicaset_map !! rs_name with
  | Some rset => members rset
  | None => []
  end.

(** The instances of a list that belong to a replicaset. *)
Definition of_replicaset (rs_name : string) (l : list ManagedInstance)
  : list ManagedInstance :=
  List.filter (λ s, String.eqb (replicaset_name s) rs_name) l.

(** Every entry of the map carries its key as name, is marked single
    primary, and has a member. *)
Definition well_keyed (replicaset_map : gmap string ManagedReplicaSet)
  : Prop :=
  ∀ rs_name rset, replicaset_map !! rs_name = Some rset →
    name rset = rs_name ∧ single_primary_mode rset = true
    ∧ members rset ≠ [].

(** The rows of [expect_metadata_1] of tests/test_failover.cc, and the
    query that delivers them. *)
Definition test_rows : list Row :=
  [ [Some "default"; Some "uuid-server1"; Some "HA"; None; None; Some "";
      Some "localhost:3000"; Some "localhost:30000"];
    [Some "default"; Some "uuid-server2"; Some "HA"; None; None; Some "";
      Some "localhost:3001"; Some "localhost:30010"];
    [Some "default"; Some "uuid-server3"; Some "HA"; None; None; Some "";
      Some "localhost:3002"; Some "localhost:30020"] ].

Definition test_query : query_run :=
  {| delivered := test_rows; session_error := None |}.

(** A result set whose second row has seven columns. *)
Definition test_query_short_row : query_run :=
  {| delivered :=
       [ [Some "default"; Some "uuid-server1"; Some "HA"; None; None;
          Some ""; Some "localhost:3000"; None];
         [Some "default"; Some "uuid-server2"; Some "HA"; None; None;
          Some ""; Some "localhost:3001"] ];
     session_error := None |}.

(** A world in which only the server on port 3001 accepts connections. *)
Definition test_world_one_up : GRWorld :=
  {| get_address := "";
     new_MySQLSession := λ _, true;
     session_connect := λ _ _ p, p =? 3001;
     fetch_group_replication_members := λ _ _, None |}.

(** *** mysql_routing.cc and routing.h *)

Module RoutingMore.
Import Routing.


(** The counters once [conn_error_counters_[ip]] has been read. *)
Definition touched (r : MySQLRouting) (ip : ip_array) : MySQLRouting :=
  set_counters r (at_ip (conn_error_counters_ r) ip).2.

(** The routing instance with another limit of errors. *)
Definition set_max_errors (r : MySQLRouting) (limit : N) : MySQLRouting :=
  {| name := name r;
     max_connections_ := max_connections_ r;
     max_connect_errors_ := limit;
     max_connect_errors_timeout_ := max_connect_errors_timeout_ r;
     info_active_routes_ := info_active_routes_ r;
     conn_error_counters_ := conn_error_counters_ r |}.

(** A routing instance with the given limit of errors, a time-out of 600
    seconds and nothing on record. *)
Definition test_routing_limit (limit : N) : MySQLRouting :=
  set_counters (set_max_errors (test_routing 600) limit) ∅.



(** [MySQLRouting::get_blocked_client_hosts]: the map is gone through in the
    order of its keys (the arrays compared bytewise, that is, the numbers
    with the first byte as the most significant one). *)
Definition get_blocked_client_hosts (r : MySQLRouting) : list ip_array :=
  List.filter
    (λ ip, match conn_error_counters_ r !! ip with
           | Some e => max_connect_errors_ r <=? count e
           | None => false
           end)
    (merge_sort N.le (map fst (map_to_list (conn_error_counters_ r)))).

(** The end of [routing_select_thread] when the handshake was not
    completed: [check_client_errors_time] and then [block_client_host],
    each with its own reading of the clock. *)
Definition on_handshake_failure (r : MySQLRouting) (curtime1 curtime2 : Z)
    (ip : ip_array) : bool * MySQLRouting :=
  let '(_, r1) := check_client_errors_time r curtime1 ip in
  block_client_host r1 curtime2 ip.

(** [block_client_host] once for each of the times, one after the other;
    the flag is what the last call returned ([last] when there is none). *)
Fixpoint block_many (times : list Z) (r : MySQLRouting) (ip : ip_array)
    (last : bool) : bool * MySQLRouting :=
  match times with
  | [] => (last, r)
  | t :: rest =>
      let '(blocked, r') := block_client_host r t ip in
      block_many rest r' ip blocked
  end.

(** **** [make_thread_name] *)

(** The C string a [std::string] buffer starts with: up to the first NUL. *)
Fixpoint c_str (s : string) : string :=
  match s with
  | EmptyString => EmptyString
  | String c rest =>
      if Ascii.eqb c "000"%char then EmptyString else String c (c_str rest)
  end.

(** [std::string::find] of a C string: the first position the pattern
    occurs at. *)
Fixpoint find_substring (pattern s : string) : option nat :=
  if String.prefix pattern s then Some 0%nat
  else match s with
       | EmptyString => None
       | String _ rest =>
           match find_substring pattern rest with
           | Some p => Some (S p)
           | None => None
           end
       end.

(** [std::string::resize(n)]: cut, or filled up with NULs. *)
Fixpoint string_resize (n : nat) (s : string) : string :=
  match n with
  | O => EmptyString
  | S n' =>
      match s with
      | EmptyString => String "000"%char (string_resize n' EmptyString)
      | String c rest => String c (string_resize n' rest)
      end
  end.

Definition kRouting : string := "routing".
Definition kPrefix : string := "_default_".

(** [MySQLRouting::make_thread_name] *)
Definition make_thread_name (config_name prefix : string) : string :=
  if negb (String.prefix kRouting config_name) then prefix ++ ":parse err"
  else
    let p := substr_from config_name (String.length kRouting) in
    let p := match p with
             | String ":"%char rest => rest
             | _ => p
             end in
    let key := c_str p in
    let key :=
      match find_substring kPrefix key with
      | Some pos => substr_from key (pos + String.length kPrefix)
      | None => key
      end in
    string_resize 15 (prefix ++ ":" ++ key).

(** The character is not in the string. *)
Fixpoint lacks (c : ascii) (s : string) : bool :=
  match s with
  | EmptyString => true
  | String a rest => negb (Ascii.eqb a c) && lacks c rest
  end.

(** **** [SocketOperationsBase::write_all] *)

(** [write_all] over [this->write], which is given as a function of the
    number of the call and of the bytes it is asked to write.  The result
    is the value returned and the bytes that went out; [None] when [fuel]
    passes of the loop were not enough. *)
Fixpoint write_all_loop (write : nat → list byte → Z) (fuel k : nat)
    (buffer : list byte) (buffer_offset : nat) (sent : list byte)
  : option (Z * list byte) :=
  if (buffer_offset <? length buffer)%nat then
    match fuel with
    | O => None
    | S fuel' =>
        let chunk := drop buffer_offset buffer in
        let written := write k chunk in
        if (written <? 0)%Z then Some ((-1)%Z, sent)
        else
          write_all_loop write fuel' (S k) buffer
            (buffer_offset + Z.to_nat written)
            (sent ++ take (Z.to_nat written) chunk)%list
    end
  else Some (Z.of_nat (length buffer), sent).

Definition write_all (write : nat → list byte → Z) (fuel : nat)
    (buffer : list byte) : option (Z * list byte) :=
  write_all_loop write fuel 0 buffer 0 [].

(** A [write] that takes at most three bytes at a time, and one that fails
    at its third call. *)
Definition test_write_3 (k : nat) (chunk : list byte) : Z :=
  Z.of_nat (Nat.min 3 (length chunk)).
Definition test_write_fails (k : nat) (chunk : list byte) : Z :=
  if (k =? 2)%nat then (-1)%Z else Z.of_nat (Nat.min 3 (length chunk)).
Definition test_buffer : list byte :=
  [x01; x02; x03; x04; x05; x06; x07; x08].

End RoutingMore.

(** *** keyring_manager.cc: [MasterKeyFile::add] and [MasterKeyFile::get] *)

Module KeyringMore.
Import Keyring.

Local Open Scope list_scope.

(** [==] on [std::string]: bytes can be compared. *)
#[export] Instance byte_eq_decision : EqDecision byte := Byte.byte_eq_dec.

(** How a call of [get] ends.  [decryption_error] is declared in
    keyring_manager.h, which is not part of the sources at hand. *)
Inductive get_result : Type :=
  | returned (value : bytes)
  | decryption_error (what : string).

(** What a callee sees of a string handed over as [data()] and
    [static_cast<uint32_t>(length())]. *)
Definition as_uint32_span (s : bytes) : bytes :=
  take (N.to_nat (N.of_nat (length s) mod UINT_MODULUS)) s.

Section Aes.

(** my_aes.h and its implementation are not part of the sources at hand;
    the three functions are parameters.  [my_aes_encrypt source key] and
    [my_aes_decrypt source key] give the value returned and the bytes
    written to [dest]. *)
Variable my_aes_get_size : N → nat.
Variable my_aes_encrypt : bytes → bytes → Z * bytes.
Variable my_aes_decrypt : bytes → bytes → Z * bytes.

(** [MasterKeyFile::add]; a [std::vector<char>(n)] holds [n] zeros, into
    which the callee writes from the start. *)
Definition add (m : MasterKeyFile) (id value key : bytes)
  : result MasterKeyFile :=
  let aes_buffer_size :=
    my_aes_get_size (N.of_nat (length value) mod UINT_MODULUS) in
  let '(encrypted_size, out) :=
    my_aes_encrypt (as_uint32_span value) (as_uint32_span key) in
  let aes_buffer := resize aes_buffer_size x00 out in
  if (encrypted_size <? 0)%Z then
    Throw (runtime_error "Could not encrypt master key data")
  else
    Ok {| path_ := path_ m;
          entries_ :=
            entries_ m
            ++ [(id, resize (Z.to_nat encrypted_size) x00 aes_buffer)] |}.

(** The loop of [MasterKeyFile::get]. *)
Fixpoint get_loop (entries : list (bytes * bytes)) (id key : bytes)
  : get_result :=
  match entries with
  | [] => returned []
  | entry :: entries' =>
      if bool_decide (entry.1 = id) then
        let '(decrypted_size, out) :=
          my_aes_decrypt (as_uint32_span entry.2) (as_uint32_span key) in
        let decrypted_buffer := resize (length entry.2) x00 out in
        if (decrypted_size <? 0)%Z then decryption_error "Decryption failed."
        else returned decrypted_buffer
      else get_loop entries' id key
  end.

(** [MasterKeyFile::get] *)
Definition get (m : MasterKeyFile) (id key : bytes) : get_result :=
  get_loop (entries_ m) id key.

End Aes.

(** A stand-in for the cipher in the examples: the bytes in reverse order
    and one byte of padding; an empty input cannot be decrypted. *)
Definition test_aes_get_size (n : N) : nat := N.to_nat n + 1.
Definition test_aes_encrypt (source key : bytes) : Z * bytes :=
  (Z.of_nat (length source + 1), rev source ++ [x01]).
Definition test_aes_decrypt (source key : bytes) : Z * bytes :=
  match source with
  | [] => ((-1)%Z, [])
  | _ => (Z.of_nat (length source - 1), rev (removelast source))
  end.

End KeyringMore.

(* ===================================================================== *)
(** * Part II.  Properties                                                *)
(* ===================================================================== *)

(** Refutes [H : x ∈ [y1; ...; yn]] when [x] differs from every [yi] by its
    constructor or its arguments. *)
Ltac not_among H :=
  repeat (apply elem_of_cons in H as [H|H]; [done|]);
  by apply elem_of_nil in H.

(** ** Reconciliation of catalog members against the group view *)

Lemma set_mode_mode member m : mode (set_mode member m) = m.
Proof. reflexivity. Qed.

Lemma set_mode_uuid member m :
  mysql_server_uuid (set_mode member m) = mysql_server_uuid member.
Proof. reflexivity. Qed.

Lemma check_member_mode member_status member acc :
  (check_member member_status member acc).1
  = set_mode member (expected_mode member_status member).
Proof.
  unfold check_member, expected_mode.
  destruct (member_status !! mysql_server_uuid member) as [status|]; [|done].
  by destruct (state status), (gr_role status).
Qed.

Lemma check_member_scan member_status member acc :
  (check_member member_status member acc).2
  = {| online_count :=
         if reported_online member_status member
         then incr_uint (online_count acc) else online_count acc;
       have_primary_instance :=
         have_primary_instance acc
         || reported_online_primary member_status member |}.
Proof.
  unfold check_member, reported_online, reported_online_primary.
  destruct acc as [oc hp]; simpl.
  destruct (member_status !! mysql_server_uuid member) as [status|];
    [|by rewrite orb_false_r].
  destruct (state status), (gr_role status); simpl;
    rewrite ?orb_false_r, ?orb_true_r; done.
Qed.

Lemma check_members_instances member_status instances acc :
  (check_members member_status instances acc).1
  = map (λ member, set_mode member (expected_mode member_status member))
        instances.
Proof.
  revert acc. induction instances as [|member rest IH]; intros acc; [done|].
  simpl. pose proof (check_member_mode member_status member acc) as Hm.
  destruct (check_member member_status member acc) as [member' acc'].
  specialize (IH acc').
  destruct (check_members member_status rest acc') as [rest' acc''].
  simpl in *. by rewrite Hm, IH.
Qed.

Lemma check_members_scan member_status instances acc :
  online_count acc < UINT_MODULUS →
  let acc' := (check_members member_status instances acc).2 in
  online_count acc'
  = (online_count acc + N.of_nat (spec_online_count member_status instances))
      mod UINT_MODULUS
  ∧ have_primary_instance acc'
    = have_primary_instance acc
      || existsb (reported_online_primary member_status) instances.
Proof.
  revert acc. induction instances as [|member rest IH]; intros acc Hlt; simpl.
  - rewrite N.add_0_r, N.mod_small, orb_false_r by done. done.
  - pose proof (check_member_scan member_status member acc) as Hs.
    destruct (check_member member_status member acc) as [member' acc1].
    simpl in Hs.
    assert (online_count acc1 < UINT_MODULUS) as Hlt1.
    { subst acc1; simpl. destruct (reported_online _ _); [|done].
      apply N.mod_lt. done. }
    specialize (IH acc1 Hlt1).
    destruct (check_members member_status rest acc1) as [rest' acc2].
    simpl in *. destruct IH as [IHc IHp]. rewrite IHc, IHp.
    subst acc1; simpl. unfold spec_online_count; simpl.
    fold (spec_online_count member_status rest).
    split.
    + destruct (reported_online member_status member); simpl; [|done].
      unfold incr_uint. rewrite N.Div0.add_mod_idemp_l.
      f_equal. unfold spec_online_count. lia.
    + by rewrite orb_assoc.
Qed.

Lemma spec_online_count_le member_status instances :
  (spec_online_count member_status instances ≤ length instances)%nat.
Proof. unfold spec_online_count. apply filter_length_le. Qed.

Lemma check_replicaset_status_unfold instances member_status :
  N.of_nat (length instances) < UINT_MODULUS →
  check_replicaset_status instances member_status
  = (map (λ member, set_mode member (expected_mode member_status member))
         instances,
     if (size member_status / 2 <?
           spec_online_count member_status instances)%nat
     then if existsb (reported_online_primary member_status) instances
          then ReplicasetStatus.AvailableWritable
          else ReplicasetStatus.AvailableReadOnly
     else ReplicasetStatus.Unavailable).
Proof.
  intros Hlen. unfold check_replicaset_status.
  pose proof (check_members_instances member_status instances
                {| online_count := 0; have_primary_instance := false |}) as Hi.
  pose proof (check_members_scan member_status instances
                {| online_count := 0; have_primary_instance := false |}) as Hs.
  destruct (check_members _ _ _) as [instances' acc]. simpl in *.
  destruct Hs as [Hc Hp]; [done|]. rewrite Hi, Hc, Hp. f_equal.
  pose proof (spec_online_count_le member_status instances) as Hle.
  rewrite N.add_0_l, N.mod_small by lia.
  replace (N.of_nat (size member_status) / 2)
    with (N.of_nat (size member_status / 2)).
  2:{ change 2 with (N.of_nat 2). by rewrite Nat2N.inj_div. }
  replace (N.ltb _ _)
    with (size member_status / 2 <? spec_online_count member_status instances)%nat.
  2:{ generalize (size member_status / 2)%nat
                 (spec_online_count member_status instances).
      intros a b.
      destruct (Nat.ltb_spec a b), (N.ltb_spec (N.of_nat a) (N.of_nat b));
        try done; lia. }
  done.
Qed.

(** C1: after [check_replicaset_status], every catalog member found in the
    status mapping is [ReadWrite] when reported Online and Primary,
    [ReadOnly] when Online and Secondary, [Unavailable] when Recovering,
    Unreachable, Offline or Other; a member absent from the mapping is
    [Unavailable].  Nothing but the mode of a member changes. *)
Theorem check_replicaset_status_modes
    (instances : list ManagedInstance)
    (member_status : gmap string GroupReplicationMember) :
  let instances' := (check_replicaset_status instances member_status).1 in
  length instances' = length instances ∧
  ∀ (i : nat) (member : ManagedInstance),
    instances !! i = Some member →
    ∃ member',
      instances' !! i = Some member' ∧
      member' = set_mode member (mode member') ∧
      match member_status !! mysql_server_uuid member with
      | Some status =>
          (state status = GR_State.Online →
           gr_role status = GR_Role.Primary →
           mode member' = ServerMode.ReadWrite) ∧
          (state status = GR_State.Online →
           gr_role status = GR_Role.Secondary →
           mode member' = ServerMode.ReadOnly) ∧
          (state status = GR_State.Recovering ∨
           state status = GR_State.Unreachable ∨
           state status = GR_State.Offline ∨
           state status = GR_State.Other →
           mode member' = ServerMode.Unavailable)
      | None => mode member' = ServerMode.Unavailable
      end.
Proof.
  simpl.
  assert ((check_replicaset_status instances member_status).1
          = map (λ member, set_mode member (expected_mode member_status member))
                instances) as ->.
  { unfold check_replicaset_status.
    pose proof (check_members_instances member_status instances
                  {| online_count := 0; have_primary_instance := false |}).
    by destruct (check_members _ _ _). }
  split; [by rewrite length_map|].
  intros i member Hi. eexists. split.
  { by rewrite list_lookup_fmap, Hi. }
  split; [done|]. simpl. unfold expected_mode.
  destruct (member_status !! mysql_server_uuid member) as [status|]; [|done].
  destruct (state status), (gr_role status); simpl; intuition congruence.
Qed.

(** The catalog and group view of the fail-over test: three members, all
    Online, the first one Primary. *)
Example check_replicaset_status_basics :
  map mode (check_replicaset_status test_instances test_member_status).1
  = [ServerMode.ReadWrite; ServerMode.ReadOnly; ServerMode.ReadOnly]
  ∧ (check_replicaset_status test_instances test_member_status).2
    = ReplicasetStatus.AvailableWritable.
Proof. by vm_compute. Qed.

(** C2: for a catalog list whose length fits the [unsigned int] counter,
    the status is [AvailableWritable] exactly when the catalog members
    reported Online outnumber half the size of the status mapping and one of
    them is Primary, [AvailableReadOnly] exactly when they do and none is
    Primary, and [Unavailable] otherwise. *)
Theorem check_replicaset_status_quorum
    (instances : list ManagedInstance)
    (member_status : gmap string GroupReplicationMember) :
  N.of_nat (length instances) < UINT_MODULUS →
  let status := (check_replicaset_status instances member_status).2 in
  let m := size member_status in
  let online := spec_online_count member_status instances in
  let primary_online :=
    ∃ member, member ∈ instances
              ∧ reported_online_primary member_status member = true in
  (status = ReplicasetStatus.AvailableWritable
     ↔ (m / 2 < online)%nat ∧ primary_online) ∧
  (status = ReplicasetStatus.AvailableReadOnly
     ↔ (m / 2 < online)%nat ∧ ¬ primary_online) ∧
  (status = ReplicasetStatus.Unavailable ↔ ¬ (m / 2 < online)%nat).
Proof.
  intros Hlen. cbv zeta.
  rewrite check_replicaset_status_unfold by done. cbn [snd].
  assert (existsb (reported_online_primary member_status) instances = true
          ↔ ∃ member, member ∈ instances
                      ∧ reported_online_primary member_status member = true)
    as Hex.
  { rewrite existsb_exists. by setoid_rewrite list_elem_of_In. }
  destruct (Nat.ltb_spec (size member_status / 2)
              (spec_online_count member_status instances)) as [Hq|Hq].
  - destruct (existsb _ instances) eqn:He.
    + assert (∃ member, member ∈ instances
                ∧ reported_online_primary member_status member = true) as Hp.
      { by apply Hex. }
      repeat split; try done; intros; try lia; tauto.
    + assert (¬ ∃ member, member ∈ instances
                ∧ reported_online_primary member_status member = true) as Hn.
      { intros Hp. by apply Hex in Hp. }
      repeat split; try done; intros; try lia; tauto.
  - repeat split; try done; intros; lia.
Qed.

Lemma check_replicaset_status_quorum_witness :
  N.of_nat (length test_instances) < UINT_MODULUS
  ∧ ((check_replicaset_status test_instances test_member_status).2
       = ReplicasetStatus.AvailableWritable
     ↔ (size test_member_status / 2
          < spec_online_count test_member_status test_instances)%nat
       ∧ ∃ member, member ∈ test_instances
           ∧ reported_online_primary test_member_status member = true).
Proof.
  split; [by vm_compute|].
  apply (check_replicaset_status_quorum test_instances test_member_status).
  by vm_compute.
Defined.

(** ** The member loop of [update_replicaset_status] *)

Lemma try_candidate_set_mode w i mi m :
  try_candidate w i (set_mode mi m) = try_candidate w i mi.
Proof. reflexivity. Qed.

Lemma try_candidate_erased w i mi1 mi2 :
  set_mode mi1 ServerMode.Unavailable = set_mode mi2 ServerMode.Unavailable →
  try_candidate w i mi1 = try_candidate w i mi2.
Proof.
  intros Heq.
  rewrite <- (try_candidate_set_mode w i mi1 ServerMode.Unavailable).
  rewrite <- (try_candidate_set_mode w i mi2 ServerMode.Unavailable).
  by rewrite Heq.
Qed.

Lemma check_replicaset_status_instances instances member_status :
  (check_replicaset_status instances member_status).1
  = map (λ member, set_mode member (expected_mode member_status member))
        instances.
Proof.
  unfold check_replicaset_status.
  pose proof (check_members_instances member_status instances
                {| online_count := 0; have_primary_instance := false |}).
  by destruct (check_members _ _ _).
Qed.

Lemma erase_modes_check instances member_status :
  erase_modes (check_replicaset_status instances member_status).1
  = erase_modes instances.
Proof.
  rewrite check_replicaset_status_instances. unfold erase_modes.
  rewrite map_map. done.
Qed.

Lemma cons_eq_parts {A : Type} (x y : A) (l l' : list A) :
  x :: l = y :: l' → x = y ∧ l = l'.
Proof. intros Heq. by injection Heq. Qed.

Lemma check_members_scan_erased member_status l1 l2 acc :
  erase_modes l1 = erase_modes l2 →
  (check_members member_status l1 acc).2
  = (check_members member_status l2 acc).2.
Proof.
  revert l2 acc. induction l1 as [|m1 l1 IH]; intros [|m2 l2] acc Heq;
    try done.
  apply cons_eq_parts in Heq as [Hm Hl]. simpl.
  assert (mysql_server_uuid m1 = mysql_server_uuid m2) as Hu.
  { change (mysql_server_uuid (set_mode m1 ServerMode.Unavailable)
            = mysql_server_uuid (set_mode m2 ServerMode.Unavailable)).
    by rewrite Hm. }
  assert ((check_member member_status m1 acc).2
          = (check_member member_status m2 acc).2) as Hacc.
  { by rewrite !check_member_scan; unfold reported_online,
      reported_online_primary; rewrite Hu. }
  destruct (check_member member_status m1 acc) as [m1' acc1].
  destruct (check_member member_status m2 acc) as [m2' acc2].
  simpl in Hacc. subst acc2.
  specialize (IH l2 acc1 Hl).
  destruct (check_members member_status l1 acc1).
  destruct (check_members member_status l2 acc1).
  simpl in *. done.
Qed.

Lemma check_replicaset_status_erased member_status l1 l2 :
  erase_modes l1 = erase_modes l2 →
  (check_replicaset_status l1 member_status).2
  = (check_replicaset_status l2 member_status).2.
Proof.
  intros Heq. unfold check_replicaset_status.
  pose proof (check_members_scan_erased member_status l1 l2
                {| online_count := 0; have_primary_instance := false |} Heq).
  destruct (check_members member_status l1 _).
  destruct (check_members member_status l2 _).
  simpl in *. by subst.
Qed.

Lemma erase_modes_lookup l1 l2 i mi :
  erase_modes l1 = erase_modes l2 → l1 !! i = Some mi →
  ∃ mi0, l2 !! i = Some mi0
         ∧ set_mode mi ServerMode.Unavailable
           = set_mode mi0 ServerMode.Unavailable.
Proof.
  unfold erase_modes. intros Heq Hi.
  assert (map (λ member, set_mode member ServerMode.Unavailable) l2 !! i
          = Some (set_mode mi ServerMode.Unavailable)) as H2.
  { by rewrite <- Heq, list_lookup_fmap, Hi. }
  rewrite list_lookup_fmap in H2.
  destruct (l2 !! i) as [mi0|]; [|done].
  exists mi0. split; [done|]. simpl in H2. by apply (inj Some) in H2.
Qed.

Lemma erase_modes_length l1 l2 :
  erase_modes l1 = erase_modes l2 → length l1 = length l2.
Proof.
  intros Heq. apply (f_equal length) in Heq.
  unfold erase_modes in Heq. by rewrite !length_map in Heq.
Qed.

(** What the loop has found when it is left, in terms of the catalog list
    [catalog] the replicaset came with. *)
Lemma member_loop_spec w catalog fuel i members spm :
  erase_modes members = erase_modes catalog →
  (length catalog ≤ fuel + i)%nat →
  match member_loop w fuel i members spm with
  | Ok ex =>
      erase_modes (exit_members ex) = erase_modes catalog ∧
      if found_quorum ex
      then ∃ j, (i ≤ j)%nat ∧ yields_quorum w catalog j = true
      else ∀ j, (i ≤ j)%nat → yields_quorum w catalog j = false
  | Throw _ =>
      ∃ j mi, catalog !! j = Some mi
              ∧ try_candidate w j mi = SessionNotCreated
  end.
Proof.
  revert i members. induction fuel as [|fuel IH]; intros i members Her Hlen.
  - simpl. split; [done|]. intros j Hj. unfold yields_quorum.
    rewrite lookup_ge_None_2; [done|lia].
  - simpl. destruct (members !! i) as [mi|] eqn:Hi.
    2:{ split; [done|]. intros j Hj. unfold yields_quorum.
        apply lookup_ge_None_1 in Hi.
        rewrite (erase_modes_length _ _ Her) in Hi.
        rewrite lookup_ge_None_2; [done|lia]. }
    destruct (erase_modes_lookup _ _ _ _ Her Hi) as (mi0 & Hi0 & Hmi).
    rewrite (try_candidate_erased w i mi mi0 Hmi).
    assert ((match try_candidate w i mi0 with
             | Reported _ _ => False | _ => True end) →
            yields_quorum w catalog i = false) as Hfail.
    { unfold yields_quorum. rewrite Hi0.
      by destruct (try_candidate w i mi0). }
    assert (∀ members',
              erase_modes members' = erase_modes catalog →
              yields_quorum w catalog i = false →
              match member_loop w fuel (S i) members' spm with
              | Ok ex =>
                  erase_modes (exit_members ex) = erase_modes catalog ∧
                  (if found_quorum ex
                   then ∃ j, (i ≤ j)%nat ∧ yields_quorum w catalog j = true
                   else ∀ j, (i ≤ j)%nat → yields_quorum w catalog j = false)
              | Throw _ =>
                  ∃ j mi, catalog !! j = Some mi
                          ∧ try_candidate w j mi = SessionNotCreated
              end) as Hnext.
    { intros members' Her' Hno.
      specialize (IH (S i) members' Her' ltac:(lia)).
      destruct (member_loop w fuel (S i) members' spm) as [ex|e]; [|done].
      destruct IH as [IHe IHq]. split; [done|].
      destruct (found_quorum ex).
      - destruct IHq as (j & Hj & Hy). exists j. split; [lia|done].
      - intros j Hj. destruct (decide (j = i)) as [->|Hne]; [done|].
        apply IHq. lia. }
    destruct (try_candidate w i mi0) as [| | |member_status single_primary]
      eqn:Htry.
    + eauto.
    + apply Hnext; [done|]. by apply Hfail.
    + apply Hnext; [done|]. by apply Hfail.
    + pose proof (erase_modes_check members member_status) as Her'.
      pose proof (check_replicaset_status_erased member_status members
                    catalog Her) as Hst.
      destruct (check_replicaset_status members member_status)
        as [members' status]. simpl in Her', Hst.
      assert (yields_quorum w catalog i
              = match status with
                | ReplicasetStatus.Unavailable => false
                | _ => true
                end) as Hy.
      { unfold yields_quorum. by rewrite Hi0, Htry, <- Hst. }
      destruct status; simpl.
      * split; [congruence|]. exists i. split; [lia|done].
      * split; [congruence|]. exists i. split; [lia|done].
      * apply Hnext; [congruence|done].
Qed.

(** The loop is done after one pass per member: fuel beyond the number of
    members left changes nothing. *)
Lemma member_loop_fuel w fuel fuel' i members spm :
  (length members ≤ fuel + i)%nat → (fuel ≤ fuel')%nat →
  member_loop w fuel' i members spm = member_loop w fuel i members spm.
Proof.
  revert fuel' i members. induction fuel as [|fuel IH];
    intros fuel' i members Hlen Hle.
  - destruct fuel'; simpl; [done|].
    rewrite lookup_ge_None_2; [done|lia].
  - destruct fuel' as [|fuel']; [lia|]. simpl.
    destruct (members !! i) as [mi|]; [|done].
    destruct (try_candidate w i mi) as [| | |member_status single_primary];
      try done; try (apply IH; lia).
    pose proof (check_replicaset_status_instances members member_status)
      as Hinst.
    destruct (check_replicaset_status members member_status)
      as [members' status]. simpl in Hinst.
    destruct status; try done.
    apply IH; [|lia]. rewrite Hinst, length_map. lia.
Qed.

Lemma update_replicaset_status_spec w rs :
  match update_replicaset_status w rs with
  | Ok (rs', fq) =>
      name rs' = name rs ∧
      if fq
      then (∃ j, yields_quorum w (members rs) j = true)
           ∧ erase_modes (members rs') = erase_modes (members rs)
      else (∀ j, yields_quorum w (members rs) j = false)
           ∧ members rs' = []
  | Throw _ =>
      ∃ j mi, members rs !! j = Some mi
              ∧ try_candidate w j mi = SessionNotCreated
  end.
Proof.
  unfold update_replicaset_status.
  pose proof (member_loop_spec w (members rs) (length (members rs)) 0
                (members rs) (single_primary_mode rs) eq_refl ltac:(lia))
    as Hloop.
  destruct (member_loop _ _ _ _ _) as [ex|e]; [|done].
  destruct Hloop as [Her Hq]. split; [done|]. simpl.
  destruct (found_quorum ex).
  - destruct Hq as (j & _ & Hy). eauto.
  - split; [|done]. intros j. apply Hq. lia.
Qed.

Lemma update_all_spec world todo replicasets snapshot :
  NoDup todo.*1 →
  update_all world todo replicasets = Ok snapshot →
  (∀ rs_name rs, (rs_name, rs) ∈ todo →
     ∃ rs' fq, update_replicaset_status (world rs_name) rs = Ok (rs', fq)
               ∧ snapshot !! rs_name = Some rs')
  ∧ (∀ rs_name, rs_name ∉ todo.*1 →
       snapshot !! rs_name = replicasets !! rs_name).
Proof.
  revert replicasets.
  induction todo as [|[n rs] todo IH]; intros replicasets Hnd Hall.
  - simpl in Hall. injection Hall as <-. split; [|done].
    intros ? ? Hin. by apply elem_of_nil in Hin.
  - simpl in Hall, Hnd. apply NoDup_cons in Hnd as [Hn Hnd].
    destruct (update_replicaset_status (world n) rs) as [[rs' fq]|e] eqn:Hu;
      [|done].
    destruct (IH _ Hnd Hall) as [IHin IHout]. split.
    + intros rs_name rs0 Hin. apply elem_of_cons in Hin as [Heq|Hin].
      * injection Heq as -> ->. exists rs', fq. split; [done|].
        rewrite (IHout n Hn). apply lookup_insert_eq.
      * by apply IHin.
    + intros rs_name Hout. simpl in Hout.
      apply not_elem_of_cons in Hout as [Hne Hout].
      rewrite (IHout _ Hout). by apply lookup_insert_ne.
Qed.

(** C3: when no candidate member yields quorum, [update_replicaset_status]
    returns with the member list cleared; and in every snapshot
    [fetch_instances] hands out, a replicaset for which no candidate yielded
    quorum (status [Unavailable]) has an empty member list, any other one
    keeps its catalog members. *)
Theorem no_quorum_clears_members :
  (∀ (w : GRWorld) (rs : ManagedReplicaSet),
     (∀ i, yields_quorum w (members rs) i = false) →
     sessions_created w (members rs) →
     ∃ rs', update_replicaset_status w rs = Ok (rs', false)
            ∧ members rs' = [])
  ∧
  (∀ strtoi_checked initial_mode (world : string → GRWorld) (q : query_run)
     (snapshot : gmap string ManagedReplicaSet),
     fetch_instances strtoi_checked initial_mode world q = Ok snapshot →
     ∃ catalog,
       fetch_instances_from_metadata_server strtoi_checked initial_mode q
       = Ok catalog
       ∧ ∀ rs_name rs', snapshot !! rs_name = Some rs' →
           ∃ rs, catalog !! rs_name = Some rs ∧
             ((∀ i, yields_quorum (world rs_name) (members rs) i = false)
                ∧ members rs' = []
              ∨ (∃ i, yields_quorum (world rs_name) (members rs) i = true)
                ∧ erase_modes (members rs') = erase_modes (members rs))).
Proof.
  split.
  - intros w rs Hno Hsess.
    pose proof (update_replicaset_status_spec w rs) as Hspec.
    destruct (update_replicaset_status w rs) as [[rs' fq]|e].
    + destruct Hspec as [_ Hspec]. destruct fq.
      * destruct Hspec as [[j Hj] _]. rewrite Hno in Hj. done.
      * exists rs'. by destruct Hspec.
    + destruct Hspec as (j & mi & Hj & Htry). by destruct (Hsess j mi Hj).
  - intros strtoi_checked initial_mode world q snapshot Hfetch.
    unfold fetch_instances in Hfetch.
    destruct (fetch_instances_from_metadata_server _ _ q) as [catalog|e];
      [|done].
    exists catalog. split; [done|]. intros rs_name rs' Hsnap.
    destruct (update_all_spec world (map_to_list catalog) catalog snapshot
                (NoDup_fst_map_to_list catalog) Hfetch) as [Hin Hout].
    destruct (catalog !! rs_name) as [rs|] eqn:Hcat.
    + exists rs. split; [done|].
      destruct (Hin rs_name rs) as (rs'' & fq & Hu & Hs).
      { by apply elem_of_map_to_list. }
      assert (rs'' = rs') as -> by congruence.
      pose proof (update_replicaset_status_spec (world rs_name) rs) as Hspec.
      rewrite Hu in Hspec. destruct Hspec as [_ Hspec].
      destruct fq; [by right|by left].
    + rewrite Hout in Hsnap; [congruence|].
      intros Hel. apply list_elem_of_fmap in Hel as ([n rs] & -> & Hel).
      apply elem_of_map_to_list in Hel. simpl in Hcat. congruence.
Qed.

(** The "no quorum" scenario: one member Online out of three. *)
Example update_replicaset_status_no_quorum :
  update_replicaset_status test_world_no_quorum test_replicaset
  = Ok ({| name := "default"; members := []; single_primary_mode := true |},
        false).
Proof. by vm_compute. Qed.

(** The "steady state" scenario. *)
Example update_replicaset_status_steady :
  option_map (λ out, map mode (members out.1))
    (match update_replicaset_status test_world_steady test_replicaset with
     | Ok out => Some out | Throw _ => None end)
  = Some [ServerMode.ReadWrite; ServerMode.ReadOnly; ServerMode.ReadOnly].
Proof. by vm_compute. Qed.

Lemma no_quorum_clears_members_witness :
  (∀ i, yields_quorum test_world_no_quorum (members test_replicaset) i = false)
  ∧ sessions_created test_world_no_quorum (members test_replicaset)
  ∧ ∃ rs', update_replicaset_status test_world_no_quorum test_replicaset
           = Ok (rs', false) ∧ members rs' = [].
Proof.
  assert (∀ i, yields_quorum test_world_no_quorum (members test_replicaset) i
               = false) as Hno.
  { intros [|[|[|i]]]; by vm_compute. }
  assert (sessions_created test_world_no_quorum (members test_replicaset))
    as Hsess.
  { intros [|[|[|i]]] mi Hi; vm_compute in Hi; try done;
      injection Hi as <-; by vm_compute. }
  split; [done|]. split; [done|].
  exact (proj1 no_quorum_clears_members test_world_no_quorum test_replicaset
           Hno Hsess).
Defined.

(** ** The row consumer of [fetch_instances_from_metadata_server] *)

Lemma find_none_split strtoi_checked uri default_port :
  find ":" uri = None →
  split_address strtoi_checked uri default_port = Some (uri, default_port).
Proof. intros Hf. unfold split_address. by rewrite Hf. Qed.

Lemma to_unsigned_int_small n :
  (0 ≤ n < 2 ^ 32)%Z → to_unsigned_int n = Z.to_N n.
Proof. intros Hn. unfold to_unsigned_int. by rewrite Z.mod_small. Qed.

Lemma well_formed_classic strtoi_checked uri :
  (∀ p, find ":" uri = Some p →
     ∃ n, strtoi_checked (substr_from uri (S p)) = Some n
          ∧ (1 ≤ n ≤ 65535)%Z) →
  ∃ h p, split_address strtoi_checked uri 3306 = Some (h, p)
         ∧ p ≤ 65535
         ∧ (find ":" uri = None → p = 3306).
Proof.
  intros Hwf. unfold split_address.
  destruct (find ":" uri) as [p|].
  - destruct (Hwf p eq_refl) as (n & -> & Hn).
    eexists _, _. split; [done|]. split; [|done].
    rewrite to_unsigned_int_small by lia. lia.
  - eexists _, _. split; [done|]. split; [lia|done].
Qed.

(** The row consumer either throws or hands back a map: it never stops the
    query, and it changes the map only by appending the instance it read. *)
Lemma result_processor_instance strtoi_checked initial_mode replicaset_map
    row s :
  read_row strtoi_checked initial_mode row = NewInstance s →
  result_processor strtoi_checked initial_mode replicaset_map row
  = Ok (add_instance replicaset_map s).
Proof. intros Hr. unfold result_processor. by rewrite Hr. Qed.

Lemma add_instance_lookup replicaset_map s :
  ∃ rset, add_instance replicaset_map s !! replicaset_name s = Some rset
          ∧ last (members rset) = Some s.
Proof.
  unfold add_instance. eexists. split; [apply lookup_insert_eq|].
  simpl. apply last_snoc.
Qed.

(** C6: a well-formed row makes the row consumer append an instance whose
    classic port is 3306 when [classic_addr] has no colon, whose [xport] is
    [port * 10] when the [x_addr] column is NULL or empty, and whose [xport]
    is 33060 when [x_addr] is there without a colon. *)
Theorem read_row_default_ports
    (strtoi_checked : string → option Z) (initial_mode : ServerMode.t)
    (replicaset_map : gmap string ManagedReplicaSet) (row : Row) :
  well_formed_row strtoi_checked row →
  ∃ s,
    read_row strtoi_checked initial_mode row = NewInstance s
    ∧ result_processor strtoi_checked initial_mode replicaset_map row
      = Ok (add_instance replicaset_map s)
    ∧ (find ":" (get_string (classic_addr row)) = None → port s = 3306)
    ∧ (present (x_addr row) = false → xport s = port s * 10)
    ∧ (present (x_addr row) = true →
       find ":" (get_string (x_addr row)) = None → xport s = 33060).
Proof.
  intros (r0 & r1 & r2 & r3 & r4 & r5 & r6 & r7 & -> & Hv & Hc & Hx).
  unfold classic_addr, x_addr in *. simpl in *.
  assert (∃ version,
            match r4 with
            | Some text => option_map to_unsigned_int (strtoi_checked text)
            | None => Some 0
            end = Some version) as [version Hversion].
  { destruct r4 as [text|]; [|by eexists].
    destruct (Hv text eq_refl) as [n ->]. by eexists. }
  rewrite Hversion.
  destruct (well_formed_classic strtoi_checked (get_string r6) Hc)
    as (h & p & Hsplit & Hp & Hdef).
  rewrite Hsplit.
  destruct (present r7) eqn:Hpres.
  - specialize (Hx eq_refl).
    assert (∃ xh xp,
              split_address strtoi_checked (get_string r7) 33060
              = Some (xh, xp)
              ∧ (find ":" (get_string r7) = None → xp = 33060))
      as (xh & xp & Hxsplit & Hxdef).
    { unfold split_address. destruct (find ":" (get_string r7)) as [q|].
      - destruct (Hx q eq_refl) as [n ->]. by eexists _, _.
      - by eexists _, _. }
    rewrite Hxsplit. eexists. split; [done|].
    unfold result_processor, read_row.
    rewrite Hversion, Hsplit, Hpres, Hxsplit. simpl. done.
  - eexists. split; [done|].
    unfold result_processor, read_row.
    rewrite Hversion, Hsplit, Hpres. simpl.
    repeat split; try done. intros _.
    apply N.mod_small. unfold UINT_MODULUS. lia.
Qed.

Lemma read_row_default_ports_witness :
  well_formed_row test_strtoi_checked test_row_defaults
  ∧ ∃ s,
      read_row test_strtoi_checked ServerMode.Unavailable test_row_defaults
      = NewInstance s
      ∧ port s = 3306 ∧ xport s = 33060.
Proof.
  assert (well_formed_row test_strtoi_checked test_row_defaults) as Hwf.
  { unfold well_formed_row, test_row_defaults.
    eexists _, _, _, _, _, _, _, _. split; [reflexivity|].
    split; [intros text; discriminate|].
    split; [intros p; vm_compute; discriminate|].
    intros Hp; vm_compute in Hp; discriminate. }
  split; [exact Hwf|].
  destruct (read_row_default_ports test_strtoi_checked ServerMode.Unavailable
              ∅ test_row_defaults Hwf) as (s & Hs & _ & Hport & Hxport & _).
  exists s. split; [exact Hs|].
  assert (port s = 3306) as Hp by (apply Hport; reflexivity).
  split; [exact Hp|]. rewrite Hxport by reflexivity. rewrite Hp. reflexivity.
Defined.

(** C10: when the [x_addr] column is there, is not empty and is read without
    error, the host of the instance is the host part of [x_addr], whatever
    host [classic_addr] named, while the classic port is still the one read
    from [classic_addr]. *)
Theorem read_row_x_addr_host
    (strtoi_checked : string → option Z) (initial_mode : ServerMode.t)
    (row : Row) (s : ManagedInstance) :
  read_row strtoi_checked initial_mode row = NewInstance s →
  present (x_addr row) = true →
  host s = host_part (get_string (x_addr row))
  ∧ (∃ classic_host,
       split_address strtoi_checked (get_string (classic_addr row)) 3306
       = Some (classic_host, port s))
  ∧ split_address strtoi_checked (get_string (x_addr row)) 33060
    = Some (host s, xport s).
Proof.
  unfold read_row.
  destruct row as [|r0 [|r1 [|r2 [|r3 [|r4 [|r5 [|r6 [|r7 [|]]]]]]]]];
    try done.
  unfold classic_addr, x_addr. simpl.
  destruct (match r4 with Some _ => _ | None => _ end) as [version|];
    [|done].
  destruct (split_address strtoi_checked (get_string r6) 3306)
    as [[ch cp]|] eqn:Hc; [|done].
  intros Hread Hpres. rewrite Hpres in Hread.
  destruct (split_address strtoi_checked (get_string r7) 33060)
    as [[xh xp]|] eqn:Hx; [|done].
  injection Hread as <-. simpl.
  split; [|by eauto].
  unfold split_address in Hx. unfold host_part.
  destruct (find ":" (get_string r7)) as [p|].
  - destruct (strtoi_checked _); [|done]. by injection Hx as <- _.
  - by injection Hx as <- _.
Qed.

Lemma read_row_x_addr_host_witness :
  read_row test_strtoi_checked ServerMode.Unavailable test_row_x
  = NewInstance test_row_x_instance
  ∧ present (x_addr test_row_x) = true
  ∧ host test_row_x_instance = "xhost"
  ∧ port test_row_x_instance = 3000.
Proof.
  split; [reflexivity|]. split; [reflexivity|].
  destruct (read_row_x_addr_host test_strtoi_checked ServerMode.Unavailable
              test_row_x test_row_x_instance eq_refl eq_refl)
    as (Hhost & _ & _).
  split; [exact Hhost|reflexivity].
Defined.

(** ** Error accounting and admission *)

Section Admission.
Import Routing.

Lemma at_ip_present counters ip e :
  counters !! ip = Some e → at_ip counters ip = (e, counters).
Proof. intros He. unfold at_ip. by rewrite He. Qed.

Lemma at_ip_lookup counters ip :
  (at_ip counters ip).2 !! ip = Some (at_ip counters ip).1.
Proof.
  unfold at_ip. destruct (counters !! ip) eqn:He; simpl; [done|].
  apply lookup_insert_eq.
Qed.

Lemma at_ip_idem counters ip :
  at_ip (at_ip counters ip).2 ip = at_ip counters ip.
Proof.
  pose proof (at_ip_lookup counters ip) as Hl.
  destruct (at_ip counters ip) as [e counters'] eqn:Ha. simpl in *.
  by apply at_ip_present.
Qed.

Lemma at_ip_other counters ip ip' :
  ip ≠ ip' → (at_ip counters ip).2 !! ip' = counters !! ip'.
Proof.
  intros Hne. unfold at_ip. destruct (counters !! ip); simpl; [done|].
  by apply lookup_insert_ne.
Qed.


(** The [size_t] difference as a number: the difference modulo 2^64. *)
Lemma timediff_wrapped curtime last :
  Z.of_N (timediff curtime last) = ((curtime - last) mod SIZE_MODULUS)%Z.
Proof.
  unfold timediff. apply Z2N.id.
  by apply Z.mod_pos_bound.
Qed.

(** With a clock that reads earlier than [last], the difference wraps
    around. *)
Lemma wrapped_behind curtime last :
  (curtime < last ≤ curtime + SIZE_MODULUS)%Z →
  ((curtime - last) mod SIZE_MODULUS
   = SIZE_MODULUS - (last - curtime))%Z.
Proof.
  intros Ht. assert (0 < SIZE_MODULUS)%Z by done.
  rewrite <- (Z.mod_add _ 1) by lia. rewrite Z.mod_small; lia.
Qed.







(** The "handshake abuse" scenario: blocked within the time-out, let in
    again (and the count reset) once the time-out has passed. *)
Example accept_client_after_timeout :
  (accept_client test_routing_600 701 7 test_ip "10.0.0.1" true true).1
  = [launch_worker 7]
  ∧ count (entry_of
             (accept_client test_routing_600 701 7 test_ip "10.0.0.1"
                true true).2 test_ip) = 0.
Proof. by vm_compute. Qed.

End Admission.

(** ** Password generation *)

Section Passwords.
Import RandomGenerator.

Variable A : AlphabetContent.
Variable outcome : nat → N.
Variable rand : nat → N.
Hypothesis A_ok : flags_ok A = true.

Lemma flags_single :
  get_alphabet A (AlphabetDigits A) = kAlphabetDigits
  ∧ get_alphabet A (AlphabetLowercase A) = kAlphabetLowercase
  ∧ get_alphabet A (AlphabetUppercase A) = kAlphabetUppercase
  ∧ get_alphabet A (AlphabetSpecial A) = kAlphabetSpecial
  ∧ get_alphabet A (AlphabetAll A) ≠ [].
Proof.
  pose proof A_ok as H. unfold flags_ok in H. cbn in H.
  repeat match type of H with
         | (_ && _) = true => apply andb_prop in H as [? H]
         end.
  repeat match goal with
         | H : Bool.eqb _ _ = true |- _ => apply Bool.eqb_prop in H
         | H : (_ && _) = true |- _ => apply andb_prop in H as [? ?]
         end.
  unfold get_alphabet.
  repeat match goal with
         | H : has_flag _ _ = _ |- _ => rewrite H; clear H
         end.
  repeat split; try done.
  destruct (has_flag (AlphabetAll A) (AlphabetDigits A)); [done|].
  destruct (has_flag (AlphabetAll A) (AlphabetLowercase A)); [done|].
  destruct (has_flag (AlphabetAll A) (AlphabetUppercase A)); [done|].
  destruct (has_flag (AlphabetAll A) (AlphabetSpecial A)); done.
Qed.

Lemma identifier_loop_spec alphabet n pos acc :
  alphabet ≠ [] →
  ∃ l, identifier_loop outcome alphabet n pos acc
       = ((acc ++ l)%list, (pos + n)%nat)
       ∧ length l = n
       ∧ Forall (λ c, c ∈ alphabet) l.
Proof.
  intros Hne. revert pos acc. induction n as [|n IH]; intros pos acc.
  - exists []. simpl. by rewrite app_nil_r, Nat.add_0_r.
  - simpl.
    set (c := nth (dist outcome (length alphabet) pos) alphabet
                "000"%char).
    destruct (IH (S pos) (acc ++ [c])%list) as (l & -> & Hlen & Hall).
    exists (c :: l). rewrite <- app_assoc. simpl.
    split; [f_equal; lia|]. split; [by rewrite Hlen|].
    constructor; [|done].
    apply list_elem_of_In, nth_In. unfold dist.
    assert (length alphabet ≠ 0)%nat by by destruct alphabet.
    pose proof (N.mod_lt (outcome pos) (N.of_nat (length alphabet))). lia.
Qed.

Lemma generate_identifier_spec n alphabet_mask pos :
  get_alphabet A alphabet_mask ≠ [] →
  ∃ l, generate_identifier A outcome n alphabet_mask pos
       = Ok (l, (pos + n)%nat)
       ∧ length l = n
       ∧ Forall (λ c, c ∈ get_alphabet A alphabet_mask) l.
Proof.
  intros Hne. unfold generate_identifier.
  destruct (get_alphabet A alphabet_mask) as [|a alphabet] eqn:Hal; [done|].
  destruct (identifier_loop_spec (a :: alphabet) n pos [] Hne)
    as (l & -> & Hlen & Hall).
  by exists l.
Qed.

Lemma iter_swap_Permutation i j l : iter_swap i j l ≡ₚ l.
Proof.
  unfold iter_swap.
  destruct (l !! i) as [x|] eqn:Hi; [|done].
  destruct (l !! j) as [y|] eqn:Hj; [|done].
  symmetry. apply Permutation_inj.
  split; [by rewrite !length_insert|].
  exists (λ k, if decide (k = i) then j
               else if decide (k = j) then i else k).
  split.
  - intros k1 k2. repeat case_decide; congruence.
  - intros k. rewrite !list_lookup_insert.
    rewrite length_insert.
    pose proof (lookup_lt_Some _ _ _ Hi). pose proof (lookup_lt_Some _ _ _ Hj).
    repeat case_decide; subst; try done; try lia; try congruence;
      destruct_and?; try lia; try congruence.
    all: try (exfalso; naive_solver lia).
Qed.

Lemma shuffle_loop_Permutation steps i k l :
  shuffle_loop rand steps i k l ≡ₚ l.
Proof.
  revert i k l. induction steps as [|steps IH]; intros i k l; simpl; [done|].
  rewrite IH. apply iter_swap_Permutation.
Qed.

Lemma random_shuffle_Permutation l : random_shuffle rand l ≡ₚ l.
Proof. apply shuffle_loop_Permutation. Qed.

(** One character drawn from [alphabet], all of whose characters satisfy
    [class], shows up in whatever is shuffled around it. *)
Lemma class_survives (class : ascii → bool) alphabet l before after :
  forallb class alphabet = true →
  length l = 1%nat → Forall (λ c, c ∈ alphabet) l →
  existsb class (random_shuffle rand (before ++ l ++ after)%list) = true.
Proof.
  intros Hclass Hlen Hall.
  destruct l as [|c [|? ?]]; try done.
  apply Forall_cons in Hall as [Hc _].
  apply existsb_exists. exists c. split.
  - apply (Permutation_in c (symmetry (random_shuffle_Permutation _))).
    apply in_or_app. right. by left.
  - rewrite forallb_forall in Hclass. by apply Hclass, list_elem_of_In.
Qed.

End Passwords.

Import RandomGenerator.

(** C9: with enumerators that select their own class, a request for at least
    eight characters returns, whatever the random sources hand out, a
    password of exactly that length with a digit, a lowercase letter, an
    uppercase letter and a special character in it; a request for fewer
    throws [std::invalid_argument]. *)
Theorem generate_strong_password_strong
    (A : AlphabetContent) (outcome rand : nat → N) (n pos : nat) :
  flags_ok A = true →
  ((8 ≤ n)%nat →
     ∃ password pos',
       generate_strong_password A outcome rand n pos = Ok (password, pos')
       ∧ length password = n
       ∧ existsb is_digit password = true
       ∧ existsb is_lowercase password = true
       ∧ existsb is_uppercase password = true
       ∧ existsb is_special password = true)
  ∧ ((n < 8)%nat →
     ∃ what,
       generate_strong_password A outcome rand n pos
       = Throw (invalid_argument what)).
Proof.
  intros A_ok. unfold generate_strong_password, kMinPasswordLength. split.
  2:{ intros Hn. apply Nat.ltb_lt in Hn. rewrite Hn. by eexists. }
  intros Hn. assert ((n <? 8)%nat = false) as -> by by apply Nat.ltb_ge.
  destruct (flags_single A A_ok) as (HD & HL & HU & HS & Hall).
  destruct (generate_identifier_spec A outcome 1 (AlphabetDigits A) pos)
    as (d & -> & Hd & Hdin); [by rewrite HD|]. cbn [bind].
  destruct (generate_identifier_spec A outcome 1 (AlphabetLowercase A)
              (pos + 1))
    as (l & -> & Hl & Hlin); [by rewrite HL|]. cbn [bind].
  destruct (generate_identifier_spec A outcome 1 (AlphabetUppercase A)
              (pos + 1 + 1))
    as (u & -> & Hu & Huin); [by rewrite HU|]. cbn [bind].
  destruct (generate_identifier_spec A outcome 1 (AlphabetSpecial A)
              (pos + 1 + 1 + 1))
    as (s & -> & Hs & Hsin); [by rewrite HS|]. cbn [bind].
  destruct (generate_identifier_spec A outcome
              (n - length (d ++ l ++ u ++ s)%list) (AlphabetAll A)
              (pos + 1 + 1 + 1 + 1))
    as (r & Hr & Hrlen & _); [done|].
  cbv zeta. rewrite Hr. cbn [bind].
  eexists _, _. split; [done|].
  rewrite HD in Hdin. rewrite HL in Hlin. rewrite HU in Huin.
  rewrite HS in Hsin.
  split.
  { rewrite (Permutation_length (random_shuffle_Permutation rand _)).
    rewrite !length_app in *. lia. }
  split.
  { rewrite <- !app_assoc.
    by apply (class_survives rand is_digit kAlphabetDigits d []
                (l ++ u ++ s ++ r)%list). }
  split.
  { rewrite <- !app_assoc.
    by apply (class_survives rand is_lowercase kAlphabetLowercase l d
                (u ++ s ++ r)%list). }
  split.
  { rewrite <- !app_assoc.
    replace (d ++ l ++ u ++ s ++ r)%list
      with ((d ++ l) ++ u ++ s ++ r)%list by by rewrite <- app_assoc.
    by apply (class_survives rand is_uppercase kAlphabetUppercase u (d ++ l)
                (s ++ r)%list). }
  { rewrite <- !app_assoc.
    replace (d ++ l ++ u ++ s ++ r)%list
      with ((d ++ l ++ u) ++ s ++ r)%list by by rewrite <- !app_assoc.
    by apply (class_survives rand is_special kAlphabetSpecial s (d ++ l ++ u)
                r). }
Qed.

Lemma generate_strong_password_strong_witness :
  flags_ok upstream_flags = true
  ∧ (8 ≤ 12)%nat
  ∧ ∃ password pos',
      generate_strong_password upstream_flags test_outcome test_rand 12 0
      = Ok (password, pos')
      ∧ length password = 12%nat
      ∧ existsb is_digit password = true
      ∧ existsb is_lowercase password = true
      ∧ existsb is_uppercase password = true
      ∧ existsb is_special password = true.
Proof.
  split; [reflexivity|]. split; [lia|].
  apply (generate_strong_password_strong upstream_flags test_outcome
           test_rand 12 0 eq_refl).
  lia.
Defined.

(** A run with the two sample sources. *)
Example generate_strong_password_sample :
  generate_strong_password upstream_flags test_outcome test_rand 8 0
  = Ok (list_ascii_of_string sample_password, 8%nat).
Proof. by vm_compute. Qed.

(** ** The master-key file *)

Section MasterKey.
Import Keyring.
Local Open Scope list_scope.

Lemma to_N_byte_of n : Byte.to_N (byte_of n) = n mod 256.
Proof.
  unfold byte_of. destruct (Byte.of_N (n mod 256)) as [b|] eqn:Hb.
  - by apply Byte.to_of_N.
  - apply Byte.of_N_None_iff in Hb.
    pose proof (N.mod_lt n 256 ltac:(done)). lia.
Qed.

Lemma uint32_value_bytes n :
  n < UINT_MODULUS → uint32_value (uint32_bytes n) = n.
Proof.
  unfold UINT_MODULUS, uint32_bytes. intros Hn. simpl uint32_value.
  rewrite !to_N_byte_of.
  change 65536 with (256 * 256). change 16777216 with (256 * 256 * 256).
  rewrite <- !N.Div0.div_div.
  pose proof (N.div_mod n 256 ltac:(done)) as H0.
  pose proof (N.div_mod (n / 256) 256 ltac:(done)) as H1.
  pose proof (N.div_mod (n / 256 / 256) 256 ltac:(done)) as H2.
  assert (n / 256 / 256 / 256 < 256) as H3.
  { rewrite !N.Div0.div_div. apply N.Div0.div_lt_upper_bound.
    change (256 * 256 * 256 * 256) with (2 ^ 32). done. }
  rewrite (N.mod_small (n / 256 / 256 / 256)) by done.
  lia.
Qed.

Lemma length_uint32_bytes n : length (uint32_bytes n) = 4%nat.
Proof. reflexivity. Qed.

(** *** [save] *)

Lemma ofstream_write_at base path mode content tr data :
  ofstream_write path data
    {| fs := <[path := file mode content]> base; trace := tr |}
  = (Ok (), {| fs := <[path := file mode (content ++ data)]> base;
               trace := tr ++ [write path data] |}).
Proof.
  unfold ofstream_write. simpl. rewrite lookup_insert_eq.
  by rewrite insert_insert_eq.
Qed.

Lemma save_entries_at base path mode entries content tr :
  save_entries path entries
    {| fs := <[path := file mode content]> base; trace := tr |}
  = (Ok (),
     {| fs := <[path := file mode
                          (content ++ concat (map saved_entry entries))]>
                base;
        trace := tr ++ concat (map (entry_effects path) entries) |}).
Proof.
  revert content tr. induction entries as [|entry entries IH];
    intros content tr.
  - simpl. by rewrite !app_nil_r.
  - simpl. unfold save_entry, mbind, io_bind.
    rewrite !ofstream_write_at. rewrite IH.
    unfold saved_entry. by rewrite <- !app_assoc.
Qed.

Lemma save_spec m w :
  fs w !! path_ m ≠ Some directory →
  save m w
  = (Ok (),
     {| fs := <[path_ m :=
                  file owner_only
                    (kMasterKeyFileSignature
                     ++ concat (map saved_entry (entries_ m)))]> (fs w);
        trace := trace w ++ save_effects m |}).
Proof.
  intros Hdir. unfold save, mbind, io_bind, ofstream_open.
  assert (∀ mode,
            (let w1 := {| fs := <[path_ m := file mode []]> (fs w);
                          trace := trace w ++ [open_truncate (path_ m)] |} in
             match make_file_private (path_ m) w1 with
             | (Throw _, w') =>
                 (Throw (runtime_error
                           ("Could not set permissions of master key file "
                            ++ path_ m)%string), w')
             | ok => ok
             end)
            = (Ok (),
               {| fs := <[path_ m := file owner_only []]> (fs w);
                  trace := trace w ++ [open_truncate (path_ m);
                                       chmod (path_ m) owner_only] |}))
    as Hprivate.
  { intros mode. cbv zeta. unfold make_file_private. simpl.
    rewrite lookup_insert_eq, insert_insert_eq, <- app_assoc. done. }
  destruct (fs w !! path_ m) as [[|mode content]|] eqn:Hlook; [done| |];
    simpl; cbv zeta in Hprivate; rewrite Hprivate;
    rewrite ofstream_write_at, save_entries_at; unfold log_effect; simpl;
    unfold save_effects; rewrite <- !app_assoc; done.
Qed.

Lemma saved_entry_layout entry :
  entry_ok entry → saved_entry entry = entry_layout entry.
Proof.
  intros [_ Hlen]. unfold saved_entry, entry_layout.
  rewrite N.mod_small by done. by rewrite <- !app_assoc.
Qed.

Lemma saved_entries_layout entries :
  Forall entry_ok entries →
  kMasterKeyFileSignature ++ concat (map saved_entry entries)
  = file_layout entries.
Proof.
  intros Hok. unfold file_layout. f_equal. f_equal.
  induction Hok as [|entry entries Hentry _ IH]; [done|].
  simpl. by rewrite saved_entry_layout, IH.
Qed.

(** *** [load] *)

Lemma strlen_name name tail :
  x00 ∉ name → strlen (name ++ x00 :: tail) = length name.
Proof.
  induction name as [|b name IH]; intros Hnul; [done|].
  apply not_elem_of_cons in Hnul as [Hb Hnul]. simpl.
  destruct (Byte.eqb b x00) eqn:Heq.
  - apply Byte.byte_dec_bl in Heq. congruence.
  - by rewrite IH.
Qed.

Lemma strlen_zeros n : strlen (replicate n x00) = 0%nat.
Proof. by destruct n. Qed.

Lemma read_full data tail n before :
  length data = n →
  read {| rest := data ++ tail; eofbit := false; failbit := false |}
    n before
  = ({| rest := tail; eofbit := false; failbit := false |}, data).
Proof.
  intros <-. unfold read. cbn [eofbit failbit rest orb].
  assert ((length data <=? length (data ++ tail)) = true)%nat as ->.
  { apply Nat.leb_le. rewrite length_app. lia. }
  by rewrite take_app_length, drop_app_length.
Qed.

(** One pass of the loop over the bytes of a saved entry reads the entry
    back. *)
Lemma load_loop_entry fuel u k entry tail entries :
  entry_ok entry →
  load_loop (S fuel) u k
    {| rest := entry_layout entry ++ tail;
       eofbit := false; failbit := false |} entries
  = load_loop fuel u (S k)
      {| rest := tail; eofbit := false; failbit := false |}
      (entries ++ [entry]).
Proof.
  intros [Hnul Hlen]. destruct entry as [name value]. simpl in Hnul, Hlen.
  cbn [load_loop eofbit].
  unfold entry_layout. cbn [fst snd].
  set (L := N.of_nat (length name + length value + 1)) in *.
  rewrite <- (app_assoc (uint32_bytes L)).
  rewrite (read_full (uint32_bytes L)) by done.
  rewrite uint32_value_bytes by done.
  rewrite (read_full (name ++ [x00] ++ value)).
  2:{ rewrite !length_app. simpl. lia. }
  change (name ++ [x00] ++ value) with (name ++ x00 :: value).
  rewrite strlen_name by done.
  assert ((length name + 1 <=? length (name ++ x00 :: value)) = true)%nat
    as ->.
  { apply Nat.leb_le. rewrite length_app. simpl. lia. }
  rewrite take_app_length.
  replace (drop (length name + 1) (name ++ x00 :: value)) with value; [done|].
  change (name ++ x00 :: value) with (name ++ [x00] ++ value).
  rewrite app_assoc. rewrite drop_app_length'; [done|].
  rewrite length_app. simpl. lia.
Qed.

Lemma load_loop_entries fuel u k saved tail entries :
  Forall entry_ok saved →
  load_loop (length saved + fuel) u k
    {| rest := concat (map entry_layout saved) ++ tail;
       eofbit := false; failbit := false |} entries
  = load_loop fuel u (k + length saved)
      {| rest := tail; eofbit := false; failbit := false |}
      (entries ++ saved).
Proof.
  intros Hok. revert k entries.
  induction Hok as [|entry saved Hentry _ IH]; intros k entries.
  - simpl. by rewrite app_nil_r, Nat.add_0_r.
  - cbn [length map concat Nat.add]. rewrite <- app_assoc.
    rewrite load_loop_entry by done. rewrite IH.
    rewrite <- app_assoc. simpl. f_equal. lia.
Qed.

Lemma read_at_end n before :
  (0 < n)%nat →
  read {| rest := []; eofbit := false; failbit := false |} n before
  = ({| rest := []; eofbit := true; failbit := true |}, before).
Proof. intros Hn. unfold read. simpl. by destruct n; [lia|]. Qed.

Lemma read_failed f n before :
  eofbit f = true →
  read f n before
  = ({| rest := rest f; eofbit := true; failbit := true |}, before).
Proof. intros Heof. unfold read. by rewrite Heof. Qed.

(** The pass at the end of the file: the stream is not at [eof] yet, the
    read of [length] fails, and an entry made of the stale [length] is
    appended, unless that is zero. *)
Lemma load_loop_end fuel u k entries :
  load_loop (S fuel) u k
    {| rest := []; eofbit := false; failbit := false |} entries
  = if (1 <=? stale_length u k)%nat
    then Some (Ok (entries
                   ++ [([], replicate (stale_length u k - 1) x00)]))
    else Some (Throw (out_of_range "basic_string::substr")).
Proof.
  cbn [load_loop eofbit].
  rewrite read_at_end by lia. rewrite read_failed by done.
  fold (stale_length u k).
  rewrite strlen_zeros, length_replicate. cbn [take Nat.add].
  destruct (1 <=? stale_length u k)%nat eqn:Hg; [|done].
  replace (drop 1 (replicate (stale_length u k) x00))
    with (replicate (stale_length u k - 1) x00)
    by (destruct (stale_length u k); [done|];
        simpl; by rewrite Nat.sub_0_r).
  by destruct fuel.
Qed.

(** *** The loop of [load] ends within its bound *)

Lemma load_loop_eof fuel u k f entries :
  eofbit f = true → load_loop fuel u k f entries = Some (Ok entries).
Proof. intros Heof. destruct fuel; simpl; by rewrite Heof. Qed.

Lemma read_good f n before :
  eofbit f = false → failbit f = false →
  ((n ≤ length (rest f))%nat
   ∧ read f n before
     = ({| rest := drop n (rest f); eofbit := false; failbit := false |},
        take n (rest f)))
  ∨ ∃ buf, read f n before
           = ({| rest := []; eofbit := true; failbit := true |}, buf).
Proof.
  intros Heof Hfail. unfold read. rewrite Heof, Hfail. cbn [orb].
  destruct (n <=? length (rest f))%nat eqn:Hn.
  - left. split; [by apply Nat.leb_le|done].
  - right. by eexists.
Qed.

Lemma load_loop_total fuel u k f entries :
  (eofbit f = false → failbit f = false) →
  (length (rest f) < fuel)%nat →
  is_Some (load_loop fuel u k f entries).
Proof.
  revert k f entries. induction fuel as [|fuel IH];
    intros k f entries Hgood Hlen; [lia|].
  destruct (eofbit f) eqn:Heof; [by rewrite load_loop_eof|].
  cbn [load_loop]. rewrite Heof.
  destruct (read_good f 4 (resize 4 x00 (length_before u k)) Heof
              (Hgood eq_refl)) as [[H4 ->]|[buf ->]].
  - match goal with
    | |- context [read ?f1 ?n ?b] =>
        destruct (read_good f1 n b eq_refl eq_refl) as [[HL ->]|[buf ->]]
    end.
    + destruct (_ <=? _)%nat; [|done].
      apply IH; [done|]. cbn [rest] in *. rewrite !length_drop. lia.
    + destruct (_ <=? _)%nat; [|done]. by rewrite load_loop_eof.
  - rewrite read_failed by done.
    destruct (_ <=? _)%nat; [|done]. by rewrite load_loop_eof.
Qed.

(** [load] never runs into the bound put on its loop. *)
Lemma load_within_bound content u :
  let f := {| rest := content; eofbit := false; failbit := false |} in
  is_Some (load_loop (S (length content)) u 0
             (read f 5 (resize 5 x00 (buf_before u))).1 []).
Proof.
  cbv zeta. apply load_loop_total.
  - unfold read. cbn [eofbit failbit rest orb].
    by destruct (5 <=? length content)%nat.
  - unfold read. cbn [eofbit failbit rest orb].
    destruct (5 <=? length content)%nat; cbn [fst rest length];
      [rewrite length_drop|]; lia.
Qed.

Lemma length_saved_entries entries :
  (length entries ≤ length (concat (map entry_layout entries)))%nat.
Proof.
  induction entries as [|entry entries IH]; [done|].
  cbn [map concat length]. unfold entry_layout at 1.
  rewrite !length_app, length_uint32_bytes. lia.
Qed.

Lemma load_saved path files mode entries u :
  Forall entry_ok entries →
  files !! path = Some (file mode (file_layout entries)) →
  load path files u
  = if (1 <=? stale_length u (length entries))%nat
    then Ok (entries
             ++ [([], replicate (stale_length u (length entries) - 1) x00)])
    else Throw (read_error path (out_of_range "basic_string::substr")).
Proof.
  intros Hok Hfile. unfold load. rewrite Hfile. unfold file_layout.
  rewrite (read_full kMasterKeyFileSignature) by done.
  change (strncmp_equal kMasterKeyFileSignature kMasterKeyFileSignature 5)
    with true. cbn [negb].
  pose proof (length_saved_entries entries) as Hlen.
  replace (S (length (kMasterKeyFileSignature
                      ++ concat (map entry_layout entries))))
    with (length entries
          + S (length (kMasterKeyFileSignature
                       ++ concat (map entry_layout entries))
               - length entries))%nat
    by (rewrite length_app; lia).
  rewrite <- (app_nil_r (concat (map entry_layout entries))).
  rewrite load_loop_entries by done.
  rewrite load_loop_end. cbn [Nat.add app].
  by destruct (1 <=? stale_length u (length entries))%nat.
Qed.

(** C7: what [save] writes is the signature followed by the entries in the
    layout of the specification, but [load] does not read back what was
    saved: its loop makes one more pass at the end of the file, and either
    throws or appends an entry with an empty name. *)
Theorem load_after_save_appends_entry
    (m : MasterKeyFile) (w : world) (u : indeterminate) :
  Forall entry_ok (entries_ m) →
  fs w !! path_ m ≠ Some directory →
  let saved := save m w in
  let stale := stale_length u (length (entries_ m)) in
  saved.1 = Ok ()
  ∧ fs saved.2 !! path_ m
    = Some (file owner_only (file_layout (entries_ m)))
  ∧ load (path_ m) (fs saved.2) u
    = (if (1 <=? stale)%nat
       then Ok (entries_ m ++ [([], replicate (stale - 1) x00)])
       else Throw (read_error (path_ m)
                     (out_of_range "basic_string::substr")))
  ∧ load (path_ m) (fs saved.2) u ≠ Ok (entries_ m).
Proof.
  intros Hok Hdir. cbv zeta. rewrite save_spec by done. cbn [fst snd fs].
  rewrite saved_entries_layout by done.
  split; [done|]. split; [apply lookup_insert_eq|].
  rewrite (load_saved _ _ owner_only (entries_ m)) by
    (done || apply lookup_insert_eq).
  split; [done|].
  destruct (1 <=? _)%nat; [|done].
  intros Heq. injection Heq as Heq.
  apply (f_equal length) in Heq. rewrite length_app in Heq.
  simpl in Heq. lia.
Qed.

Lemma load_after_save_appends_entry_witness :
  Forall entry_ok (entries_ test_keyfile)
  ∧ fs empty_world !! path_ test_keyfile ≠ Some directory
  ∧ load (path_ test_keyfile) (fs (save test_keyfile empty_world).2)
      (test_indeterminate 3)
    = Ok (test_entries ++ [([], [x00; x00])]).
Proof.
  assert (Forall entry_ok (entries_ test_keyfile)) as Hok.
  { repeat constructor; simpl; try done.
    - intros Hin. not_among Hin.
    - intros Hin. not_among Hin. }
  assert (fs empty_world !! path_ test_keyfile ≠ Some directory) as Hdir
    by done.
  split; [exact Hok|]. split; [exact Hdir|].
  exact (proj1 (proj2 (proj2
           (load_after_save_appends_entry test_keyfile empty_world
              (test_indeterminate 3) Hok Hdir)))).
Defined.

(** The key file of the examples, saved and loaded, with the stale
    [length] holding 3 and holding 0. *)
Example load_after_save_stale_3 :
  load (path_ test_keyfile) (fs (save test_keyfile empty_world).2)
    (test_indeterminate 3)
  = Ok [ ([x6b; x31], [x01; x00; x02]); ([x6b], [xff]);
         ([], [x00; x00]) ].
Proof. by vm_compute. Qed.

Example load_after_save_stale_0 :
  load (path_ test_keyfile) (fs (save test_keyfile empty_world).2)
    (test_indeterminate 0)
  = Throw (runtime_error
             ("Error reading from master key file "
              ++ "/etc/mysqlrouter/mysqlrouter.key: basic_string::substr")).
Proof. by vm_compute. Qed.

(** *** How [save] goes about the file *)

(** C8 as the specification words it fails: the save of the example opens
    and writes the target itself, and nothing is renamed. *)
Lemma save_does_not_rename :
  (save test_keyfile empty_world).1 = Ok ()
  ∧ ¬ writes_temp_then_renames (path_ test_keyfile)
        (trace (save test_keyfile empty_world).2).
Proof.
  split; [by vm_compute|].
  intros (temp & _ & Hin & _). vm_compute in Hin.
  not_among Hin.
Qed.

Lemma precedes_save_effects m :
  precedes (chmod (path_ m) owner_only) (is_write_to (path_ m))
    (save_effects m).
Proof.
  intros i e Hi [data ->]. unfold save_effects in *.
  destruct i as [|[|i]]; [done|done|]. exists 1%nat. split; [lia|done].
Qed.

Lemma save_effects_no_rename m source target :
  rename source target ∉ save_effects m.
Proof.
  unfold save_effects. intros Hin.
  repeat (apply elem_of_cons in Hin as [Hin|Hin]; [done|]).
  apply elem_of_app in Hin as [Hin|Hin].
  - apply list_elem_of_In, in_concat in Hin as (l & Hl & Hin).
    apply in_map_iff in Hl as (entry & <- & _).
    apply list_elem_of_In in Hin. unfold entry_effects in Hin.
    not_among Hin.
  - by apply list_elem_of_singleton in Hin.
Qed.

(** C8, amended: every save that can open the target opens the target
    itself, emptying it, and writes the content to it in place, no
    temporary file and no rename being involved; the permissions of the
    target are set to owner-only before any content is written, and are
    owner-only when the save is done. *)
Theorem save_writes_in_place (m : MasterKeyFile) (w : world) :
  fs w !! path_ m ≠ Some directory →
  ∃ effects,
    save m w
    = (Ok (),
       {| fs := <[path_ m :=
                    file owner_only
                      (kMasterKeyFileSignature
                       ++ concat (map saved_entry (entries_ m)))]> (fs w);
          trace := trace w ++ effects |})
    ∧ head effects = Some (open_truncate (path_ m))
    ∧ (∀ source target, rename source target ∉ effects)
    ∧ precedes (chmod (path_ m) owner_only) (is_write_to (path_ m))
        effects.
Proof.
  intros Hdir. exists (save_effects m).
  split; [by apply save_spec|]. split; [done|].
  split; [apply save_effects_no_rename|apply precedes_save_effects].
Qed.

Lemma save_writes_in_place_witness :
  fs empty_world !! path_ test_keyfile ≠ Some directory
  ∧ ∃ effects,
      trace (save test_keyfile empty_world).2 = effects
      ∧ head effects = Some (open_truncate (path_ test_keyfile)).
Proof.
  assert (fs empty_world !! path_ test_keyfile ≠ Some directory) as Hdir
    by done.
  split; [exact Hdir|].
  destruct (save_writes_in_place test_keyfile empty_world Hdir)
    as (effects & Hsave & Hhead & _).
  exists effects. split; [|exact Hhead].
  rewrite Hsave. reflexivity.
Defined.

End MasterKey.

(* ===================================================================== *)
(** * Part III.  Further properties of the same code                      *)
(* ===================================================================== *)

(** ** [check_replicaset_status] *)

Lemma set_mode_twice member a b :
  set_mode (set_mode member a) b = set_mode member b.
Proof. reflexivity. Qed.

Lemma expected_mode_set_mode member_status member m :
  expected_mode member_status (set_mode member m)
  = expected_mode member_status member.
Proof. reflexivity. Qed.

Lemma check_replicaset_status_reconciled instances member_status :
  (check_replicaset_status instances member_status).1
  = reconciled member_status instances.
Proof. apply check_replicaset_status_instances. Qed.

Lemma reconciled_erased member_status l1 l2 :
  erase_modes l1 = erase_modes l2 →
  reconciled member_status l1 = reconciled member_status l2.
Proof.
  intros Heq.
  assert (∀ l, reconciled member_status l
               = reconciled member_status (erase_modes l)) as Her.
  { intros l. unfold reconciled, erase_modes. by rewrite map_map. }
  by rewrite (Her l1), (Her l2), Heq.
Qed.

(** The status without any bound on the number of members: the counter is
    the number of members reported Online modulo 2^32. *)
Lemma check_replicaset_status_status instances member_status :
  (check_replicaset_status instances member_status).2
  = if N.of_nat (size member_status) / 2
       <? N.of_nat (spec_online_count member_status instances)
          mod UINT_MODULUS
    then if existsb (reported_online_primary member_status) instances
         then ReplicasetStatus.AvailableWritable
         else ReplicasetStatus.AvailableReadOnly
    else ReplicasetStatus.Unavailable.
Proof.
  unfold check_replicaset_status.
  pose proof (check_members_scan member_status instances
                {| online_count := 0; have_primary_instance := false |}
                ltac:(done)) as [Hc Hp].
  destruct (check_members _ _ _) as [instances' acc]. simpl in *.
  by rewrite Hc, Hp, N.add_0_l.
Qed.

(** X1: reconciling twice against the same status map changes nothing: the
    second run leaves the vector and the status of the first. *)
Theorem check_replicaset_status_idempotent
    (instances : list ManagedInstance)
    (member_status : gmap string GroupReplicationMember) :
  check_replicaset_status
    (check_replicaset_status instances member_status).1 member_status
  = check_replicaset_status instances member_status.
Proof.
  rewrite (surjective_pairing (check_replicaset_status
             (check_replicaset_status instances member_status).1
             member_status)).
  rewrite (surjective_pairing
             (check_replicaset_status instances member_status)) at 3.
  f_equal.
  - rewrite !check_replicaset_status_reconciled.
    apply reconciled_erased.
    rewrite <- check_replicaset_status_reconciled. apply erase_modes_check.
  - apply check_replicaset_status_erased, erase_modes_check.
Qed.

Lemma available_reconciled member_status instances :
  List.filter available (reconciled member_status instances)
  = reconciled member_status
      (List.filter (reported_online member_status) instances).
Proof.
  induction instances as [|member rest IH]; [done|].
  unfold reconciled in *. simpl.
  assert (available (set_mode member (expected_mode member_status member))
          = reported_online member_status member) as ->.
  { unfold available, expected_mode, reported_online. simpl.
    destruct (member_status !! mysql_server_uuid member) as [status|];
      [|done].
    by destruct (state status), (gr_role status). }
  destruct (reported_online member_status member); simpl; by rewrite IH.
Qed.

(** X2: the members left with mode [ReadWrite] or [ReadOnly] are exactly
    the catalog members reported Online, and when the catalog has fewer than
    2^32 members the replicaset is available exactly when they outnumber
    half the size of the status map. *)
Theorem routable_members_are_the_quorum
    (instances : list ManagedInstance)
    (member_status : gmap string GroupReplicationMember) :
  N.of_nat (length instances) < UINT_MODULUS →
  let out := check_replicaset_status instances member_status in
  List.filter available out.1
  = reconciled member_status
      (List.filter (reported_online member_status) instances)
  ∧ (out.2 ≠ ReplicasetStatus.Unavailable
     ↔ (size member_status / 2 < length (List.filter available out.1))%nat).
Proof.
  intros Hlen. cbv zeta.
  rewrite check_replicaset_status_reconciled, available_reconciled.
  split; [done|].
  rewrite check_replicaset_status_unfold by done. cbn [snd].
  unfold reconciled. rewrite length_map. fold (spec_online_count
    member_status instances).
  destruct (Nat.ltb_spec (size member_status / 2)
              (spec_online_count member_status instances)) as [Hq|Hq].
  - split; [done|]. intros _. by destruct (existsb _ _).
  - split; [done|lia].
Qed.

Lemma routable_members_are_the_quorum_witness :
  N.of_nat (length test_instances) < UINT_MODULUS
  ∧ length (List.filter available
              (check_replicaset_status test_instances
                 test_member_status_minority).1) = 1%nat.
Proof.
  assert (N.of_nat (length test_instances) < UINT_MODULUS) as Hlen
    by reflexivity.
  split; [exact Hlen|].
  rewrite (proj1 (routable_members_are_the_quorum test_instances
                    test_member_status_minority Hlen)).
  reflexivity.
Defined.

Lemma is_read_write_reconciled member_status instances :
  existsb is_read_write (reconciled member_status instances)
  = existsb (reported_online_primary member_status) instances.
Proof.
  induction instances as [|member rest IH]; [done|].
  unfold reconciled in *. simpl. rewrite IH. f_equal.
  unfold is_read_write, expected_mode, reported_online_primary. simpl.
  destruct (member_status !! mysql_server_uuid member) as [status|]; [|done].
  by destruct (state status), (gr_role status).
Qed.

(** X3: a replicaset reported [AvailableWritable] has a member left in mode
    [ReadWrite]; one reported [AvailableReadOnly] has none. *)
Theorem writable_status_has_a_writable_member
    (instances : list ManagedInstance)
    (member_status : gmap string GroupReplicationMember) :
  let out := check_replicaset_status instances member_status in
  (out.2 = ReplicasetStatus.AvailableWritable →
   existsb is_read_write out.1 = true)
  ∧ (out.2 = ReplicasetStatus.AvailableReadOnly →
     existsb is_read_write out.1 = false).
Proof.
  cbv zeta.
  rewrite check_replicaset_status_reconciled, is_read_write_reconciled.
  rewrite check_replicaset_status_status.
  destruct (_ <? _); [|done]. by destruct (existsb _ _).
Qed.

Lemma writable_status_has_a_writable_member_witness :
  existsb is_read_write
    (check_replicaset_status test_instances test_member_status).1 = true.
Proof.
  apply (proj1 (writable_status_has_a_writable_member test_instances
                  test_member_status)).
  reflexivity.
Defined.

Lemma spec_online_count_unknown member_status instances :
  (∀ member, member ∈ instances →
     member_status !! mysql_server_uuid member = None) →
  spec_online_count member_status instances = 0%nat.
Proof.
  intros Hnone. unfold spec_online_count.
  induction instances as [|member rest IH]; [done|]. simpl.
  unfold reported_online at 1. rewrite Hnone by apply list_elem_of_here.
  apply IH. intros m Hm. apply Hnone. by apply list_elem_of_further.
Qed.

(** X4: when the status map knows none of the catalog members (the empty
    map, or the view of a foreign group), every member is left
    [Unavailable] and the status is [Unavailable]. *)
Theorem unknown_members_make_unavailable
    (instances : list ManagedInstance)
    (member_status : gmap string GroupReplicationMember) :
  (∀ member, member ∈ instances →
     member_status !! mysql_server_uuid member = None) →
  check_replicaset_status instances member_status
  = (map (λ member, set_mode member ServerMode.Unavailable) instances,
     ReplicasetStatus.Unavailable).
Proof.
  intros Hnone.
  rewrite (surjective_pairing
             (check_replicaset_status instances member_status)).
  f_equal.
  - rewrite check_replicaset_status_reconciled. unfold reconciled.
    apply map_ext_in. intros member Hin. unfold expected_mode.
    by rewrite Hnone by by apply list_elem_of_In.
  - rewrite check_replicaset_status_status.
    rewrite spec_online_count_unknown by done.
    change (N.of_nat 0 mod UINT_MODULUS) with 0.
    destruct (N.ltb_spec (N.of_nat (size member_status) / 2) 0) as [Hlt|];
      [by apply N.nlt_0_r in Hlt|done].
Qed.

Lemma unknown_members_make_unavailable_witness :
  (∀ member, member ∈ test_instances →
     (∅ : gmap string GroupReplicationMember) !! mysql_server_uuid member
     = None)
  ∧ (check_replicaset_status test_instances ∅).2
    = ReplicasetStatus.Unavailable.
Proof.
  assert (∀ member, member ∈ test_instances →
            (∅ : gmap string GroupReplicationMember)
              !! mysql_server_uuid member = None) as Hnone
    by (intros member _; apply lookup_empty).
  split; [exact Hnone|].
  rewrite (unknown_members_make_unavailable test_instances ∅ Hnone).
  reflexivity.
Defined.

(** ** [update_replicaset_status] and [fetch_instances] *)

Lemma yields_quorum_reported w catalog j mi member_status single_primary :
  catalog !! j = Some mi →
  try_candidate w j mi = Reported member_status single_primary →
  yields_quorum w catalog j
  = match (check_replicaset_status catalog member_status).2 with
    | ReplicasetStatus.Unavailable => false
    | _ => true
    end.
Proof. intros Hj Htry. unfold yields_quorum. by rewrite Hj, Htry. Qed.

Lemma yields_quorum_not_reported w catalog j mi :
  catalog !! j = Some mi →
  (∀ member_status single_primary,
     try_candidate w j mi ≠ Reported member_status single_primary) →
  yields_quorum w catalog j = false.
Proof.
  intros Hj Htry. unfold yields_quorum. rewrite Hj.
  destruct (try_candidate w j mi) as [| | |ms sp]; try done.
  by destruct (Htry ms sp).
Qed.

(** The loop is left with quorum at the first candidate that yields it, with
    the modes and the primary mode of that candidate's view. *)
Lemma member_loop_first w catalog fuel i members spm ex :
  erase_modes members = erase_modes catalog →
  member_loop w fuel i members spm = Ok ex →
  found_quorum ex = true →
  ∃ j mi member_status single_primary,
    (i ≤ j)%nat
    ∧ catalog !! j = Some mi
    ∧ try_candidate w j mi = Reported member_status single_primary
    ∧ yields_quorum w catalog j = true
    ∧ (∀ k, (i ≤ k < j)%nat → yields_quorum w catalog k = false)
    ∧ exit_members ex = reconciled member_status catalog
    ∧ exit_single_primary_mode ex = single_primary.
Proof.
  revert i members. induction fuel as [|fuel IH];
    intros i members Her Hloop Hfound.
  { simpl in Hloop. injection Hloop as <-. done. }
  simpl in Hloop. destruct (members !! i) as [mi|] eqn:Hi.
  2:{ injection Hloop as <-. done. }
  destruct (erase_modes_lookup _ _ _ _ Her Hi) as (mi0 & Hi0 & Hmi).
  rewrite (try_candidate_erased w i mi mi0 Hmi) in Hloop.
  assert (∀ members',
            erase_modes members' = erase_modes catalog →
            yields_quorum w catalog i = false →
            member_loop w fuel (S i) members' spm = Ok ex →
            ∃ j mi member_status single_primary,
              (i ≤ j)%nat
              ∧ catalog !! j = Some mi
              ∧ try_candidate w j mi = Reported member_status single_primary
              ∧ yields_quorum w catalog j = true
              ∧ (∀ k, (i ≤ k < j)%nat → yields_quorum w catalog k = false)
              ∧ exit_members ex = reconciled member_status catalog
              ∧ exit_single_primary_mode ex = single_primary) as Hnext.
  { intros members' Her' Hno Hloop'.
    destruct (IH (S i) members' Her' Hloop' Hfound)
      as (j & mj & ms & sp & Hle & Hj & Htry & Hy & Hbefore & Hm & Hsp).
    exists j, mj, ms, sp. repeat split; try done; [lia|].
    intros k Hk. destruct (decide (k = i)) as [->|Hne]; [done|].
    apply Hbefore. lia. }
  destruct (try_candidate w i mi0) as [| | |member_status single_primary]
    eqn:Htry; [done| | |].
  - apply (Hnext members); [done| |done].
    apply (yields_quorum_not_reported w catalog i mi0 Hi0).
    intros ms sp. by rewrite Htry.
  - apply (Hnext members); [done| |done].
    apply (yields_quorum_not_reported w catalog i mi0 Hi0).
    intros ms sp. by rewrite Htry.
  - pose proof (erase_modes_check members member_status) as Her'.
    pose proof (check_replicaset_status_erased member_status members
                  catalog Her) as Hst.
    pose proof (check_replicaset_status_reconciled members member_status)
      as Hrec.
    pose proof (yields_quorum_reported w catalog i mi0 member_status
                  single_primary Hi0 Htry) as Hy.
    rewrite <- Hst in Hy.
    destruct (check_replicaset_status members member_status)
      as [members' status]. simpl in Her', Hst, Hrec, Hy.
    assert (members' = reconciled member_status catalog) as Hm.
    { rewrite Hrec. by apply reconciled_erased. }
    destruct status.
    + injection Hloop as <-. exists i, mi0, member_status, single_primary.
      repeat split; try done. intros k Hk. lia.
    + injection Hloop as <-. exists i, mi0, member_status, single_primary.
      repeat split; try done. intros k Hk. lia.
    + apply (Hnext members'); [congruence|done|done].
Qed.

(** X5: when [update_replicaset_status] finds quorum, the replicaset is
    left as the first candidate (in catalog order) that yields quorum sees
    it: the modes come from that candidate's status map, and so does
    [single_primary_mode]; the candidates before it yielded none. *)
Theorem update_replicaset_status_adopts_first
    (w : GRWorld) (rs rs' : ManagedReplicaSet) :
  update_replicaset_status w rs = Ok (rs', true) →
  ∃ j mi member_status single_primary,
    members rs !! j = Some mi
    ∧ try_candidate w j mi = Reported member_status single_primary
    ∧ yields_quorum w (members rs) j = true
    ∧ (∀ k, (k < j)%nat → yields_quorum w (members rs) k = false)
    ∧ members rs' = reconciled member_status (members rs)
    ∧ single_primary_mode rs' = single_primary
    ∧ name rs' = name rs.
Proof.
  unfold update_replicaset_status. intros Hupdate.
  destruct (member_loop _ _ _ _ _) as [ex|e] eqn:Hloop; [|done].
  injection Hupdate as <- Hfound.
  destruct (member_loop_first w (members rs) _ 0 (members rs) _ ex
              eq_refl Hloop Hfound)
    as (j & mj & ms & sp & _ & Hj & Htry & Hy & Hbefore & Hm & Hsp).
  exists j, mj, ms, sp. simpl. rewrite Hfound.
  repeat split; try done. intros k Hk. apply Hbefore. lia.
Qed.

Lemma update_replicaset_status_adopts_first_witness :
  ∃ rs',
    update_replicaset_status test_world_steady test_replicaset
    = Ok (rs', true)
    ∧ map mode (members rs')
      = [ServerMode.ReadWrite; ServerMode.ReadOnly; ServerMode.ReadOnly]
    ∧ ∃ j, yields_quorum test_world_steady (members test_replicaset) j = true
           ∧ ∀ k, (k < j)%nat →
               yields_quorum test_world_steady (members test_replicaset) k
               = false.
Proof.
  eexists. split; [vm_compute; reflexivity|]. split; [reflexivity|].
  match goal with
  | |- context [yields_quorum ?w (members ?rs)] =>
      destruct (update_replicaset_status_adopts_first w rs _ eq_refl)
        as (j & _ & _ & _ & _ & _ & Hy & Hbefore & _)
  end.
  exists j. split; [exact Hy|exact Hbefore].
Defined.

(** X6: [fetch_instances] hands out a replicaset for every replicaset of
    the catalog and no other, each under its own name; one without quorum is
    kept, with no members. *)
Theorem fetch_instances_keeps_replicasets
    (strtoi_checked : string → option Z) (initial_mode : ServerMode.t)
    (world : string → GRWorld) (q : query_run)
    (catalog snapshot : gmap string ManagedReplicaSet) :
  fetch_instances_from_metadata_server strtoi_checked initial_mode q
  = Ok catalog →
  fetch_instances strtoi_checked initial_mode world q = Ok snapshot →
  dom snapshot = dom catalog
  ∧ ∀ rs_name rs rs',
      catalog !! rs_name = Some rs → snapshot !! rs_name = Some rs' →
      name rs' = name rs.
Proof.
  intros Hcat Hfetch. unfold fetch_instances in Hfetch. rewrite Hcat in Hfetch.
  destruct (update_all_spec world (map_to_list catalog) catalog snapshot
              (NoDup_fst_map_to_list catalog) Hfetch) as [Hin Hout].
  assert (∀ rs_name rs, catalog !! rs_name = Some rs →
            ∃ rs' fq,
              update_replicaset_status (world rs_name) rs = Ok (rs', fq)
              ∧ snapshot !! rs_name = Some rs') as Hkept.
  { intros rs_name rs Hrs. apply Hin. by apply elem_of_map_to_list. }
  assert (∀ rs_name, catalog !! rs_name = None →
            snapshot !! rs_name = None) as Hnone.
  { intros rs_name Hrs. rewrite Hout; [done|].
    intros Hel. apply list_elem_of_fmap in Hel as ([n rs] & -> & Hel).
    apply elem_of_map_to_list in Hel. simpl in Hrs. congruence. }
  split.
  - apply set_eq. intros rs_name. rewrite !elem_of_dom.
    destruct (catalog !! rs_name) as [rs|] eqn:Hrs.
    + destruct (Hkept rs_name rs Hrs) as (rs' & fq & _ & ->).
      split; intros _; by eexists.
    + rewrite (Hnone rs_name Hrs). done.
  - intros rs_name rs rs' Hrs Hrs'.
    destruct (Hkept rs_name rs Hrs) as (rs'' & fq & Hu & Hs).
    assert (rs'' = rs') as -> by congruence.
    pose proof (update_replicaset_status_spec (world rs_name) rs) as Hspec.
    rewrite Hu in Hspec. by destruct Hspec.
Qed.

Lemma fetch_instances_keeps_replicasets_witness :
  ∃ catalog snapshot,
    fetch_instances_from_metadata_server test_strtoi_checked
      ServerMode.Unavailable test_query = Ok catalog
    ∧ fetch_instances test_strtoi_checked ServerMode.Unavailable
        (λ _, test_world_steady) test_query = Ok snapshot
    ∧ dom snapshot = dom catalog.
Proof.
  eexists _, _.
  split; [vm_compute; reflexivity|]. split; [vm_compute; reflexivity|].
  match goal with
  | |- dom ?snapshot = dom ?catalog =>
      exact (proj1 (fetch_instances_keeps_replicasets test_strtoi_checked
                      ServerMode.Unavailable (λ _, test_world_steady)
                      test_query catalog snapshot eq_refl eq_refl))
  end.
Defined.

(** ** The rows of the catalog query *)

Lemma members_of_add_instance replicaset_map s rs_name :
  members_of (add_instance replicaset_map s) rs_name
  = (members_of replicaset_map rs_name ++ of_replicaset rs_name [s])%list.
Proof.
  unfold members_of, add_instance, of_replicaset. simpl.
  destruct (String.eqb_spec (replicaset_name s) rs_name) as [->|Hne].
  - rewrite lookup_insert_eq. simpl. by destruct (replicaset_map !! rs_name).
  - rewrite lookup_insert_ne by done. by rewrite app_nil_r.
Qed.

Lemma of_replicaset_app rs_name l1 l2 :
  of_replicaset rs_name (l1 ++ l2)%list
  = (of_replicaset rs_name l1 ++ of_replicaset rs_name l2)%list.
Proof. apply List.filter_app. Qed.

Lemma instances_of_cons strtoi_checked initial_mode row rows :
  instances_of strtoi_checked initial_mode (row :: rows)
  = match read_row strtoi_checked initial_mode row with
    | NewInstance s => s :: instances_of strtoi_checked initial_mode rows
    | _ => instances_of strtoi_checked initial_mode rows
    end.
Proof.
  unfold instances_of. simpl.
  by destruct (read_row strtoi_checked initial_mode row).
Qed.

Lemma process_rows_members strtoi_checked initial_mode replicaset_map rows
    result_map rs_name :
  process_rows strtoi_checked initial_mode replicaset_map rows
  = Ok result_map →
  members_of result_map rs_name
  = (members_of replicaset_map rs_name
     ++ of_replicaset rs_name
          (instances_of strtoi_checked initial_mode rows))%list.
Proof.
  revert replicaset_map. induction rows as [|row rows IH];
    intros replicaset_map Hrows.
  - simpl in Hrows. injection Hrows as <-. by rewrite app_nil_r.
  - simpl in Hrows. unfold result_processor in Hrows.
    rewrite instances_of_cons.
    destruct (read_row strtoi_checked initial_mode row) as [n| | |s];
      try done.
    + by apply IH.
    + rewrite (IH _ Hrows), members_of_add_instance.
      change (s :: instances_of strtoi_checked initial_mode rows)
        with ([s] ++ instances_of strtoi_checked initial_mode rows)%list.
      by rewrite of_replicaset_app, app_assoc.
Qed.

Lemma process_rows_well_keyed strtoi_checked initial_mode replicaset_map
    rows result_map :
  well_keyed replicaset_map →
  process_rows strtoi_checked initial_mode replicaset_map rows
  = Ok result_map →
  well_keyed result_map.
Proof.
  revert replicaset_map. induction rows as [|row rows IH];
    intros replicaset_map Hwk Hrows.
  - simpl in Hrows. by injection Hrows as <-.
  - simpl in Hrows. unfold result_processor in Hrows.
    destruct (read_row strtoi_checked initial_mode row) as [n| | |s];
      try done.
    + by apply (IH replicaset_map).
    + apply (IH (add_instance replicaset_map s)); [|done].
      intros rs_name rset Hlook. unfold add_instance in Hlook.
      destruct (decide (replicaset_name s = rs_name)) as [<-|Hne].
      * rewrite lookup_insert_eq in Hlook. injection Hlook as <-. simpl.
        repeat split; try done. intros Hnil.
        by apply app_eq_nil in Hnil as [_ Hnil].
      * rewrite lookup_insert_ne in Hlook by done. by apply Hwk.
Qed.

(** X7: the catalog is the rows grouped by replicaset name: under each name
    stand the instances built from the rows of that name, in row order, and
    a name is in the map only if a row gave an instance for it; every entry
    is named by its key and marked single primary. *)
Theorem fetch_groups_rows_by_replicaset
    (strtoi_checked : string → option Z) (initial_mode : ServerMode.t)
    (q : query_run) (catalog : gmap string ManagedReplicaSet) :
  fetch_instances_from_metadata_server strtoi_checked initial_mode q
  = Ok catalog →
  ∀ rs_name,
    members_of catalog rs_name
    = of_replicaset rs_name
        (instances_of strtoi_checked initial_mode (delivered q))
    ∧ ∀ rset, catalog !! rs_name = Some rset →
        name rset = rs_name ∧ single_primary_mode rset = true
        ∧ members rset ≠ [].
Proof.
  unfold fetch_instances_from_metadata_server. intros Hfetch rs_name.
  destruct (process_rows _ _ ∅ (delivered q)) as [result_map|e] eqn:Hrows;
    [|done].
  destruct (session_error q); [done|]. injection Hfetch as <-.
  split.
  - rewrite (process_rows_members _ _ _ _ _ rs_name Hrows).
    unfold members_of at 1. by rewrite lookup_empty.
  - apply (process_rows_well_keyed _ _ ∅ _ _ ltac:(done) Hrows).
Qed.

Lemma fetch_groups_rows_by_replicaset_witness :
  ∃ catalog,
    fetch_instances_from_metadata_server test_strtoi_checked
      ServerMode.Unavailable test_query = Ok catalog
    ∧ map mysql_server_uuid (members_of catalog "default")
      = ["uuid-server1"; "uuid-server2"; "uuid-server3"].
Proof.
  eexists. split; [vm_compute; reflexivity|].
  match goal with
  | |- context [members_of ?catalog _] =>
      rewrite (proj1 (fetch_groups_rows_by_replicaset test_strtoi_checked
                        ServerMode.Unavailable test_query catalog eq_refl
                        "default"))
  end.
  reflexivity.
Defined.

Lemma read_row_wrong_arity strtoi_checked initial_mode row :
  length row ≠ 8%nat →
  read_row strtoi_checked initial_mode row = WrongArity (length row).
Proof.
  intros Hlen.
  by destruct row as [|? [|? [|? [|? [|? [|? [|? [|? [|? ?]]]]]]]]].
Qed.

Lemma read_row_eight_columns strtoi_checked initial_mode row n :
  length row = 8%nat →
  read_row strtoi_checked initial_mode row ≠ WrongArity n.
Proof.
  intros Hlen.
  destruct row as [|r0 [|r1 [|r2 [|r3 [|r4 [|r5 [|r6 [|r7 [|? ?]]]]]]]]];
    try done.
  unfold read_row.
  destruct (match r4 with Some _ => _ | None => _ end); [|done].
  destruct (split_address strtoi_checked (get_string r6) 3306) as [[? ?]|];
    [|done].
  destruct (present r7); [|done].
  by destruct (split_address strtoi_checked (get_string r7) 33060)
    as [[? ?]|].
Qed.

(** X8: a row that does not have eight columns aborts the fetch with a
    [metadata_error] that names the number of columns, whatever the rows
    before it gave (as long as none of them threw) and whatever comes after
    it; no partial catalog is returned. *)
Theorem wrong_arity_aborts_fetch
    (strtoi_checked : string → option Z) (initial_mode : ServerMode.t)
    (before after : list Row) (row : Row) (error : option string) :
  Forall (λ r, length r = 8%nat
               ∧ read_row strtoi_checked initial_mode r ≠ Escaped) before →
  length row ≠ 8%nat →
  fetch_instances_from_metadata_server strtoi_checked initial_mode
    {| delivered := (before ++ row :: after)%list;
       session_error := error |}
  = Throw (metadata_error
             ("Unexpected number of fields in the resultset. "
              ++ "Expected = 8, got = " ++ pretty (length row))).
Proof.
  intros Hbefore Hrow. unfold fetch_instances_from_metadata_server. simpl.
  assert (∀ replicaset_map,
            process_rows strtoi_checked initial_mode replicaset_map
              (before ++ row :: after)%list
            = Throw (metadata_error
                       ("Unexpected number of fields in the resultset. "
                        ++ "Expected = 8, got = " ++ pretty (length row))))
    as ->; [|done].
  induction Hbefore as [|r before [Hlen Hesc] _ IH]; intros replicaset_map.
  - simpl. unfold result_processor.
    by rewrite (read_row_wrong_arity _ _ _ Hrow).
  - simpl. unfold result_processor.
    destruct (read_row strtoi_checked initial_mode r) as [n| | |s] eqn:Hr;
      try done; try apply IH.
    by destruct (read_row_eight_columns strtoi_checked initial_mode r n
                   Hlen).
Qed.

Lemma wrong_arity_aborts_fetch_witness :
  fetch_instances_from_metadata_server test_strtoi_checked
    ServerMode.Unavailable test_query_short_row
  = Throw (metadata_error
             "Unexpected number of fields in the resultset. Expected = 8, got = 7").
Proof.
  exact (wrong_arity_aborts_fetch test_strtoi_checked
           ServerMode.Unavailable
           [[Some "default"; Some "uuid-server1"; Some "HA"; None; None;
             Some ""; Some "localhost:3000"; None]]
           []
           [Some "default"; Some "uuid-server2"; Some "HA"; None; None;
            Some ""; Some "localhost:3001"] None
           ltac:(repeat constructor; discriminate)
           ltac:(discriminate)).
Defined.

(** ** [ClusterMetadata::connect] *)

Lemma connect_loop_spec w i metadata_servers :
  let out := connect_loop w i metadata_servers in
  if out.1
  then ∃ j mi,
         metadata_servers !! j = Some mi
         ∧ do_connect w (i + j) mi = true
         ∧ (∀ k mk, (k < j)%nat → metadata_servers !! k = Some mk →
              do_connect w (i + k) mk = false)
         ∧ out.2 = take (S j) metadata_servers
  else (∀ k mk, metadata_servers !! k = Some mk →
          do_connect w (i + k) mk = false)
       ∧ out.2 = metadata_servers.
Proof.
  revert i. induction metadata_servers as [|mi rest IH]; intros i; cbv zeta.
  - simpl. split; [|done]. intros k mk Hk. done.
  - simpl. destruct (do_connect w i mi) eqn:Hc; simpl.
    + exists 0%nat, mi. rewrite Nat.add_0_r. repeat split; try done.
      intros k mk Hk. lia.
    + specialize (IH (S i)). cbv zeta in IH.
      destruct (connect_loop w (S i) rest) as [connected tried]. simpl in *.
      destruct connected.
      * destruct IH as (j & mj & Hj & Hcj & Hbefore & Htried).
        exists (S j), mj. rewrite Nat.add_succ_r. repeat split; try done.
        -- intros [|k] mk Hk Hlook.
           ++ rewrite Nat.add_0_r. simpl in Hlook. congruence.
           ++ rewrite Nat.add_succ_r. apply Hbefore; [lia|done].
        -- by rewrite Htried.
      * destruct IH as [Hall Htried]. split; [|by rewrite Htried].
        intros [|k] mk Hlook.
        -- rewrite Nat.add_0_r. simpl in Hlook. congruence.
        -- rewrite Nat.add_succ_r. by apply Hall.
Qed.

(** X9: [connect] tries the metadata servers in the order given and stops
    at the first one that accepts the connection, the servers after it not
    being tried; it returns [false] when none accepts, having tried them
    all, and when no session object can be had, having tried none. *)
Theorem connect_stops_at_first_server
    (w : GRWorld) (metadata_servers : list ManagedInstance) :
  let out := connect w metadata_servers in
  (new_MySQLSession w 0 = false → out = (false, []))
  ∧ (new_MySQLSession w 0 = true →
     if out.1
     then ∃ j mi,
            metadata_servers !! j = Some mi
            ∧ do_connect w j mi = true
            ∧ (∀ k mk, (k < j)%nat → metadata_servers !! k = Some mk →
                 do_connect w k mk = false)
            ∧ out.2 = take (S j) metadata_servers
     else (∀ k mk, metadata_servers !! k = Some mk →
             do_connect w k mk = false)
          ∧ out.2 = metadata_servers).
Proof.
  cbv zeta. unfold connect. split; intros Hs; rewrite Hs; [done|]. simpl.
  apply (connect_loop_spec w 0 metadata_servers).
Qed.

Lemma connect_stops_at_first_server_witness :
  ∃ j mi,
    test_instances !! j = Some mi
    ∧ do_connect test_world_one_up j mi = true
    ∧ (connect test_world_one_up test_instances).2
      = take (S j) test_instances.
Proof.
  pose proof (proj2 (connect_stops_at_first_server test_world_one_up
                       test_instances) eq_refl) as H.
  change ((connect test_world_one_up test_instances).1) with true in H.
  destruct H as (j & mi & Hj & Hup & _ & Htried). by exists j, mi.
Defined.

(** Only the second of three servers is up: it is the one connected to,
    and the third one is not tried. *)
Example connect_second_of_three :
  (connect test_world_one_up test_instances).1 = true
  ∧ map port (connect test_world_one_up test_instances).2 = [3000; 3001].
Proof. by vm_compute. Qed.

(** ** The error table and the acceptor *)

Section AdmissionMore.
Import Routing RoutingMore.

Lemma set_counters_twice r a b :
  set_counters (set_counters r a) b = set_counters r b.
Proof. reflexivity. Qed.


Lemma entry_of_set r counters ip e :
  entry_of (set_counters r (<[ip := e]> counters)) ip = e.
Proof.
  unfold entry_of. simpl. by rewrite (at_ip_present _ ip e (lookup_insert_eq _ _ _)).
Qed.

Lemma entry_of_at_ip r ip :
  entry_of (set_counters r (at_ip (conn_error_counters_ r) ip).2) ip
  = entry_of r ip.
Proof. unfold entry_of. simpl. by rewrite at_ip_idem. Qed.

Lemma check_client_errors_time_cases r curtime ip :
  check_client_errors_time r curtime ip
  = if max_connect_errors_timeout_ r =? 0 then (false, r)
    else if max_connect_errors_timeout_ r
            <? timediff curtime (last_attempt (entry_of r ip))
         then (true,
               set_counters r
                 (<[ip := {| count := 0;
                             last_attempt := last_attempt (entry_of r ip) |}]>
                    (at_ip (conn_error_counters_ r) ip).2))
         else (false, touched r ip).
Proof.
  unfold check_client_errors_time, entry_of, touched.
  destruct (_ =? 0); [done|].
  by destruct (at_ip (conn_error_counters_ r) ip) as [e counters].
Qed.

Lemma block_client_host_cases r curtime ip :
  block_client_host r curtime ip
  = (max_connect_errors_ r
       <=? (count (entry_of r ip) + 1) mod UINT_MODULUS,
     set_counters r
       (<[ip := {| count := (count (entry_of r ip) + 1) mod UINT_MODULUS;
                   last_attempt := curtime |}]>
          (at_ip (conn_error_counters_ r) ip).2)).
Proof.
  unfold block_client_host, entry_of.
  by destruct (at_ip (conn_error_counters_ r) ip) as [e counters].
Qed.




(** X10: each call of [block_client_host] adds one to the count of the
    address and stamps it with the time of the call; for an address with
    nothing on record the call that reports the host blocked is the
    [max_connect_errors]-th one and every one after it. *)
Theorem errors_in_a_row_block_the_host
    (r : MySQLRouting) (ip : ip_array) (times : list Z) (last : bool) :
  conn_error_counters_ r !! ip = None →
  times ≠ [] →
  N.of_nat (length times) < UINT_MODULUS →
  let out := block_many times r ip last in
  out.1 = (max_connect_errors_ r <=? N.of_nat (length times))
  ∧ conn_error_counters_ out.2 !! ip
    = Some {| count := N.of_nat (length times);
              last_attempt := List.last times 0%Z |}
  ∧ ∀ ip', ip' ≠ ip →
      conn_error_counters_ out.2 !! ip' = conn_error_counters_ r !! ip'.
Proof.
  intros Hnone Hne Hlen. cbv zeta.
  assert (∀ times r last,
            times ≠ [] →
            count (entry_of r ip) + N.of_nat (length times) < UINT_MODULUS →
            (block_many times r ip last).1
            = (max_connect_errors_ r
                 <=? count (entry_of r ip) + N.of_nat (length times))
            ∧ conn_error_counters_ (block_many times r ip last).2 !! ip
              = Some {| count := count (entry_of r ip)
                                 + N.of_nat (length times);
                        last_attempt := List.last times 0%Z |}
            ∧ ∀ ip', ip' ≠ ip →
                conn_error_counters_ (block_many times r ip last).2 !! ip'
                = conn_error_counters_ r !! ip') as Hgen.
  { clear. intros times. induction times as [|t times IH];
      intros r last Hne Hlen; [done|].
    cbn [block_many]. rewrite block_client_host_cases.
    set (c' := (count (entry_of r ip) + 1) mod UINT_MODULUS).
    set (r' := set_counters r _).
    assert (c' = count (entry_of r ip) + 1) as Hc'.
    { unfold c'. apply N.mod_small. cbn [length] in Hlen. lia. }
    assert (entry_of r' ip = {| count := c'; last_attempt := t |}) as He'
      by apply entry_of_set.
    assert (∀ ip', ip' ≠ ip →
              conn_error_counters_ r' !! ip' = conn_error_counters_ r !! ip')
      as Hother.
    { intros ip' Hip. unfold r'. simpl. rewrite lookup_insert_ne by done.
      by apply at_ip_other. }
    destruct times as [|t2 times].
    - cbn [block_many fst snd length List.last].
      split; [by rewrite Hc'|]. split; [|done].
      unfold r'. simpl. by rewrite lookup_insert_eq, Hc'.
    - destruct (IH r' (max_connect_errors_ r <=? c') ltac:(done)) as
        (Hflag & Hentry & Hrest).
      { rewrite He'. simpl count. rewrite Hc'.
        cbn [length] in *. lia. }
      rewrite Hflag, Hentry. rewrite He'. simpl count. rewrite Hc'.
      assert (count (entry_of r ip) + 1 + N.of_nat (length (t2 :: times))
              = count (entry_of r ip)
                + N.of_nat (length (t :: t2 :: times))) as ->
        by (cbn [length]; lia).
      repeat split; try done.
      intros ip' Hip. rewrite Hrest by done. by apply Hother. }
  assert (entry_of r ip = fresh_entry) as Hfresh.
  { unfold entry_of, at_ip. by rewrite Hnone. }
  destruct (Hgen times r last Hne) as (Hflag & Hentry & Hrest).
  { rewrite Hfresh. simpl. lia. }
  rewrite Hfresh in Hflag, Hentry. simpl in Hflag, Hentry.
  done.
Qed.

Lemma errors_in_a_row_block_the_host_witness :
  (block_many [10; 20]%Z (test_routing_limit 3) test_ip false).1 = false
  ∧ (block_many [10; 20; 30]%Z (test_routing_limit 3) test_ip false).1
    = true.
Proof.
  split.
  - rewrite (proj1 (errors_in_a_row_block_the_host (test_routing_limit 3)
                      test_ip [10; 20]%Z false eq_refl
                      ltac:(discriminate) ltac:(reflexivity))).
    reflexivity.
  - rewrite (proj1 (errors_in_a_row_block_the_host (test_routing_limit 3)
                      test_ip [10; 20; 30]%Z false eq_refl
                      ltac:(discriminate) ltac:(reflexivity))).
    reflexivity.
Defined.











(** X16: after a handshake that failed, the count of the address starts
    again at one when the time-out is not zero and the difference between
    the clock and the last error, taken as the unsigned 64-bit number the
    code computes, exceeds it; otherwise it is one more than before,
    wrapping at 2^32.  The address is stamped with the time of the failure,
    and the host is reported blocked exactly when the new count reaches the
    limit.  For a clock that has not gone back the difference is the age of
    the last error; for a clock that reads earlier than the last error it is
    2^64 less the gap. *)
Theorem handshake_failure_counts
    (r : MySQLRouting) (curtime1 curtime2 : Z) (ip : ip_array) :
  let e := entry_of r ip in
  let difference := ((curtime1 - last_attempt e) mod SIZE_MODULUS)%Z in
  let expired :=
    negb (max_connect_errors_timeout_ r =? 0)
    && (Z.of_N (max_connect_errors_timeout_ r) <? difference)%Z in
  let count' := if expired then 1 else (count e + 1) mod UINT_MODULUS in
  let out := on_handshake_failure r curtime1 curtime2 ip in
  out.1 = (max_connect_errors_ r <=? count')
  ∧ conn_error_counters_ out.2 !! ip
    = Some {| count := count'; last_attempt := curtime2 |}
  ∧ (∀ ip', ip' ≠ ip →
       conn_error_counters_ out.2 !! ip' = conn_error_counters_ r !! ip')
  ∧ ((last_attempt e ≤ curtime1 < last_attempt e + SIZE_MODULUS)%Z →
     difference = (curtime1 - last_attempt e)%Z)
  ∧ ((curtime1 < last_attempt e ≤ curtime1 + SIZE_MODULUS)%Z →
     difference = (SIZE_MODULUS - (last_attempt e - curtime1))%Z).
Proof.
  cbv zeta.
  assert (∀ A B C D E : Prop, A ∧ B ∧ C → D → E → A ∧ B ∧ C ∧ D ∧ E)
    as Hpack by tauto.
  apply Hpack; clear Hpack.
  2:{ intros Hclock. apply Z.mod_small. lia. }
  2:{ apply wrapped_behind. }
  unfold on_handshake_failure.
  rewrite check_client_errors_time_cases.
  pose proof (timediff_wrapped curtime1 (last_attempt (entry_of r ip)))
    as Hdiff.
  pose proof (entry_of_at_ip r ip) as Htouched.
  fold (touched r ip) in Htouched.
  assert (∀ ip', ip' ≠ ip →
            conn_error_counters_ (touched r ip) !! ip'
            = conn_error_counters_ r !! ip') as Hother.
  { intros ip' Hne. by apply at_ip_other. }
  destruct (N.eqb_spec (max_connect_errors_timeout_ r) 0) as [Hz|Hnz];
    cbn [negb andb].
  { rewrite block_client_host_cases. cbn [fst snd]. simpl.
    rewrite lookup_insert_eq. repeat split; try done.
    intros ip' Hne. rewrite lookup_insert_ne by done. by apply at_ip_other. }
  destruct (N.ltb_spec (max_connect_errors_timeout_ r)
              (timediff curtime1 (last_attempt (entry_of r ip))))
    as [Hold|Hrecent];
    destruct (Z.ltb_spec (Z.of_N (max_connect_errors_timeout_ r))
                ((curtime1 - last_attempt (entry_of r ip))
                   mod SIZE_MODULUS)) as [Hold'|Hrec'];
    try lia.
  - rewrite block_client_host_cases. cbn [fst snd].
    rewrite entry_of_set. simpl.
    rewrite lookup_insert_eq. change ((0 + 1) mod UINT_MODULUS) with 1.
    repeat split; try done.
    intros ip' Hne.
    rewrite lookup_insert_ne by done.
    rewrite (at_ip_other _ ip ip') by done.
    rewrite lookup_insert_ne by done. by apply at_ip_other.
  - rewrite block_client_host_cases. cbn [fst snd].
    rewrite Htouched. simpl.
    rewrite lookup_insert_eq. repeat split; try done.
    intros ip' Hne. rewrite lookup_insert_ne by done.
    rewrite (at_ip_other _ ip ip') by done. by apply Hother.
Qed.

Lemma handshake_failure_counts_witness :
  conn_error_counters_
    (on_handshake_failure (set_max_errors test_routing_600 5) 701 702
       test_ip).2 !! test_ip
  = Some {| count := 1; last_attempt := 702 |}
  ∧ conn_error_counters_
      (on_handshake_failure (set_max_errors test_routing_600 5) 200 201
         test_ip).2 !! test_ip
    = Some {| count := 2; last_attempt := 201 |}
  ∧ conn_error_counters_
      (on_handshake_failure (set_max_errors test_routing_600 5) 50 51
         test_ip).2 !! test_ip
    = Some {| count := 1; last_attempt := 51 |}.
Proof.
  split; [|split].
  - rewrite (proj1 (proj2 (handshake_failure_counts
                      (set_max_errors test_routing_600 5) 701 702 test_ip))).
    reflexivity.
  - rewrite (proj1 (proj2 (handshake_failure_counts
                      (set_max_errors test_routing_600 5) 200 201 test_ip))).
    reflexivity.
  - rewrite (proj1 (proj2 (handshake_failure_counts
                      (set_max_errors test_routing_600 5) 50 51 test_ip))).
    reflexivity.
Defined.


Lemma StronglySorted_bool_filter {A} (R : relation A) (f : A → bool) l :
  StronglySorted R l → StronglySorted R (List.filter f l).
Proof.
  induction 1 as [|x l Hl IH Hx]; simpl; [constructor|].
  destruct (f x); [|done]. constructor; [done|].
  apply List.Forall_forall. intros y [Hy _]%filter_In.
  by apply (proj1 (List.Forall_forall _ _) Hx).
Qed.

Lemma sorted_NoDup_strict (l : list N) :
  StronglySorted N.le l → List.NoDup l → StronglySorted N.lt l.
Proof.
  induction 1 as [|x l Hl IH Hx]; intros Hnd; [constructor|].
  apply List.NoDup_cons_iff in Hnd as [Hx' Hnd].
  constructor; [by apply IH|].
  apply List.Forall_forall. intros y Hy.
  pose proof (proj1 (List.Forall_forall _ _) Hx y Hy).
  assert (x ≠ y) by (by intros ->). lia.
Qed.

Lemma get_blocked_client_hosts_spec r ip :
  ip ∈ get_blocked_client_hosts r
  ↔ ∃ e, conn_error_counters_ r !! ip = Some e
         ∧ max_connect_errors_ r ≤ count e.
Proof.
  unfold get_blocked_client_hosts, ip_array in *.
  rewrite list_elem_of_In, filter_In, <- list_elem_of_In,
    merge_sort_Permutation.
  split.
  - intros [_ Hover]. destruct (conn_error_counters_ r !! ip) as [e|];
      [|done]. exists e. split; [done|]. by apply N.leb_le.
  - intros (e & He & Hover). rewrite He. split; [|by apply N.leb_le].
    apply list_elem_of_fmap. exists (ip, e). split; [done|].
    by apply elem_of_map_to_list.
Qed.

(** X13: [get_blocked_client_hosts] lists exactly the addresses whose
    entry has reached [max_connect_errors_], whatever the age of the last
    error, each once and in the order of the keys. *)
Theorem blocked_hosts_are_those_over_the_limit (r : MySQLRouting) :
  (∀ ip, ip ∈ get_blocked_client_hosts r
         ↔ ∃ e, conn_error_counters_ r !! ip = Some e
                ∧ max_connect_errors_ r ≤ count e)
  ∧ StronglySorted N.lt (get_blocked_client_hosts r).
Proof.
  split; [apply get_blocked_client_hosts_spec|].
  unfold get_blocked_client_hosts. apply sorted_NoDup_strict.
  - apply StronglySorted_bool_filter, StronglySorted_merge_sort; apply _.
  - apply List.NoDup_filter, NoDup_ListNoDup.
    rewrite merge_sort_Permutation. apply NoDup_fst_map_to_list.
Qed.

(** X17: [block_client_host] returns true exactly when the address is in
    [get_blocked_client_hosts] afterwards, and it neither adds nor removes
    any other address there. *)
Theorem blocking_lists_the_host
    (r : MySQLRouting) (curtime : Z) (ip : ip_array) :
  let out := block_client_host r curtime ip in
  (out.1 = true ↔ ip ∈ get_blocked_client_hosts out.2)
  ∧ (∀ ip', ip' ≠ ip →
       ip' ∈ get_blocked_client_hosts out.2
       ↔ ip' ∈ get_blocked_client_hosts r).
Proof.
  cbv zeta. rewrite block_client_host_cases. cbn [fst snd]. split.
  - rewrite get_blocked_client_hosts_spec. simpl.
    rewrite lookup_insert_eq, N.leb_le. split.
    + intros Hover. by eexists.
    + by intros (e & [= <-] & Hover).
  - intros ip' Hne. rewrite !get_blocked_client_hosts_spec. simpl.
    rewrite lookup_insert_ne by done. by rewrite at_ip_other.
Qed.

Lemma blocking_lists_the_host_witness :
  test_ip
  ∈ get_blocked_client_hosts (block_client_host test_routing_600 150
                                test_ip).2.
Proof.
  apply (proj1 (blocking_lists_the_host test_routing_600 150 test_ip)).
  reflexivity.
Defined.



End AdmissionMore.

(* --------------------------------------------------------------------- *)
(** ** Thread names and [write_all]                                       *)
(* --------------------------------------------------------------------- *)

Section ThreadNames.
Import RoutingMore.

Lemma string_resize_length n s : String.length (string_resize n s) = n.
Proof.
  revert s. induction n as [|n IH]; intros s; [done|].
  destruct s; simpl; by rewrite IH.
Qed.

Lemma lacks_app c s1 s2 :
  lacks c (s1 ++ s2) = lacks c s1 && lacks c s2.
Proof.
  induction s1 as [|a s1 IH]; simpl; [done|].
  by rewrite IH, andb_assoc.
Qed.

Lemma c_str_without_NUL s : lacks "000"%char s = true → c_str s = s.
Proof.
  induction s as [|a s IH]; simpl; [done|].
  intros [Ha Hs]%andb_true_iff. apply negb_true_iff in Ha.
  by rewrite Ha, IH.
Qed.

Lemma find_substring_after cluster suffix :
  lacks "_"%char cluster = true →
  find_substring kPrefix (cluster ++ kPrefix ++ suffix)
  = Some (String.length cluster).
Proof.
  induction cluster as [|a cluster IH]; intros Hlacks.
  - simpl. by destruct suffix.
  - simpl in Hlacks. apply andb_true_iff in Hlacks as [Ha Hlacks].
    apply negb_true_iff, Ascii.eqb_neq in Ha.
    change (find_substring kPrefix ((String a cluster) ++ kPrefix ++ suffix))
      with (if String.prefix kPrefix (String a (cluster ++ kPrefix ++ suffix))
            then Some 0%nat
            else match find_substring kPrefix (cluster ++ kPrefix ++ suffix)
                 with Some p => Some (S p) | None => None end).
    rewrite (IH Hlacks).
    assert (String.prefix kPrefix (String a (cluster ++ kPrefix ++ suffix))
            = false) as ->; [|done].
    unfold kPrefix at 1. cbn [String.prefix].
    by destruct (ascii_dec "_" a) as [<-|].
Qed.

Lemma substr_from_app s1 s2 n :
  substr_from (s1 ++ s2) (String.length s1 + n) = substr_from s2 n.
Proof. induction s1 as [|a s1 IH]; simpl; [done|apply IH]. Qed.

(** X19: when the configuration name starts with [routing], the thread
    name has exactly 15 characters, cut or filled up with NULs; when it
    does not, the name is the prefix followed by [:parse err], which is not
    brought to 15 characters. *)
Theorem make_thread_name_shape (config_name prefix : string) :
  if String.prefix kRouting config_name
  then String.length (make_thread_name config_name prefix) = 15%nat
  else make_thread_name config_name prefix = prefix ++ ":parse err".
Proof.
  unfold make_thread_name.
  destruct (String.prefix kRouting config_name); cbn [negb]; [|done].
  cbv zeta. apply string_resize_length.
Qed.

(** X20: for the names that bootstrap generates,
    [routing:<cluster>_default_<suffix>], the cluster name having no
    underscore, the thread name is [<prefix>:<suffix>] brought to 15
    characters: the cluster name and [_default_] are left out. *)
Theorem make_thread_name_of_bootstrap_names
    (cluster suffix prefix : string) :
  lacks "_"%char cluster = true →
  lacks "000"%char cluster = true →
  lacks "000"%char suffix = true →
  make_thread_name ("routing:" ++ cluster ++ "_default_" ++ suffix) prefix
  = string_resize 15 (prefix ++ ":" ++ suffix).
Proof.
  intros Hunderscore Hcluster Hsuffix. unfold make_thread_name.
  change (String.prefix kRouting
            ("routing:" ++ cluster ++ "_default_" ++ suffix)) with true.
  cbn [negb].
  change (substr_from ("routing:" ++ cluster ++ "_default_" ++ suffix)
            (String.length kRouting))
    with (String ":"%char (cluster ++ kPrefix ++ suffix)).
  cbv zeta. rewrite c_str_without_NUL.
  - rewrite (find_substring_after _ _ Hunderscore).
    rewrite substr_from_app. by destruct suffix.
  - rewrite !lacks_app, Hcluster, Hsuffix. reflexivity.
Qed.

Lemma make_thread_name_of_bootstrap_names_witness :
  make_thread_name "routing:mycluster_default_x_ro" "RtS"
  = "RtS:x_ro" ++ string_resize 7 "".
Proof.
  exact (make_thread_name_of_bootstrap_names "mycluster" "x_ro" "RtS"
           eq_refl eq_refl eq_refl).
Defined.

End ThreadNames.

Section WriteAll.
Import RoutingMore.

Variable write : nat → list byte → Z.
Variable buffer : list byte.

Lemma write_all_loop_result fuel :
  ∀ k buffer_offset sent v sent',
    sent = take buffer_offset buffer →
    write_all_loop write fuel k buffer buffer_offset sent = Some (v, sent') →
    (v = (-1)%Z
     ∧ ∃ n, (n < length buffer)%nat ∧ sent' = take n buffer)
    ∨ (v = Z.of_nat (length buffer) ∧ sent' = buffer).
Proof.
  induction fuel as [|fuel IH]; intros k off sent v sent' Hsent; simpl.
  all: destruct (Nat.ltb_spec off (length buffer)) as [Hlt|Hge].
  - done.
  - intros [= <- <-]. right. split; [done|]. by rewrite Hsent, take_ge.
  - destruct (Z.ltb_spec (write k (drop off buffer)) 0) as [Hneg|Hpos].
    + intros [= <- <-]. left. split; [done|]. by exists off.
    + apply IH. by rewrite Hsent, take_take_drop.
  - intros [= <- <-]. right. split; [done|]. by rewrite Hsent, take_ge.
Qed.

Lemma write_all_loop_progress :
  (∀ k chunk, chunk ≠ [] → (0 < write k chunk)%Z) →
  ∀ fuel k buffer_offset sent,
    (length buffer - buffer_offset ≤ fuel)%nat →
    sent = take buffer_offset buffer →
    write_all_loop write fuel k buffer buffer_offset sent
    = Some (Z.of_nat (length buffer), buffer).
Proof.
  intros Hprogress.
  induction fuel as [|fuel IH]; intros k off sent Hfuel Hsent; simpl.
  all: destruct (Nat.ltb_spec off (length buffer)) as [Hlt|Hge].
  - lia.
  - by rewrite Hsent, take_ge.
  - assert (drop off buffer ≠ []) as Hchunk.
    { intros Hnil%(f_equal length). rewrite length_drop in Hnil.
      simpl in Hnil. lia. }
    specialize (Hprogress k _ Hchunk).
    destruct (Z.ltb_spec (write k (drop off buffer)) 0) as [Hneg|Hpos];
      [lia|].
    apply IH; [lia|]. by rewrite Hsent, take_take_drop.
  - by rewrite Hsent, take_ge.
Qed.

Lemma write_all_loop_stuck :
  (∀ k chunk, write k chunk = 0%Z) →
  ∀ fuel k buffer_offset sent,
    (buffer_offset < length buffer)%nat →
    write_all_loop write fuel k buffer buffer_offset sent = None.
Proof.
  intros Hzero.
  induction fuel as [|fuel IH]; intros k off sent Hlt; simpl.
  all: destruct (Nat.ltb_spec off (length buffer)) as [_|Hge]; try lia.
  - done.
  - rewrite Hzero. simpl. rewrite Nat.add_0_r. by apply IH.
Qed.

(** X21: when every call of [write] on a buffer that is not empty takes
    at least one byte, [write_all] returns the length of the buffer after
    at most that many passes, and what went out is the buffer, byte for
    byte. *)
Theorem write_all_writes_the_whole_buffer (fuel : nat) :
  (∀ k chunk, chunk ≠ [] → (0 < write k chunk)%Z) →
  (length buffer ≤ fuel)%nat →
  write_all write fuel buffer = Some (Z.of_nat (length buffer), buffer).
Proof.
  intros Hprogress Hfuel. unfold write_all.
  apply write_all_loop_progress; [done|lia|by rewrite take_0].
Qed.

Lemma write_all_loop_returns :
  (∀ k chunk, chunk ≠ [] → write k chunk ≠ 0%Z) →
  ∀ fuel k buffer_offset sent,
    (length buffer - buffer_offset ≤ fuel)%nat →
    is_Some (write_all_loop write fuel k buffer buffer_offset sent).
Proof.
  intros Hnonzero.
  induction fuel as [|fuel IH]; intros k off sent Hfuel; simpl.
  all: destruct (Nat.ltb_spec off (length buffer)) as [Hlt|Hge]; try done.
  - lia.
  - assert (drop off buffer ≠ []) as Hchunk.
    { intros Hnil%(f_equal length). rewrite length_drop in Hnil.
      simpl in Hnil. lia. }
    specialize (Hnonzero k _ Hchunk).
    destruct (Z.ltb_spec (write k (drop off buffer)) 0) as [Hneg|Hpos];
      [done|].
    apply IH. lia.
Qed.

(** X22: when no call of [write] on a remainder that is not empty returns
    0, [write_all] returns within as many passes as the buffer has bytes,
    and what it returns is either the length of the buffer, the whole buffer
    having gone out, or -1, and then a part of the buffer that is not all of
    it has gone out, of which the value returned says nothing. *)
Theorem write_all_returns_all_or_minus_one (fuel : nat) :
  (∀ k chunk, chunk ≠ [] → write k chunk ≠ 0%Z) →
  (length buffer ≤ fuel)%nat →
  ∃ v sent,
    write_all write fuel buffer = Some (v, sent)
    ∧ ((v = Z.of_nat (length buffer) ∧ sent = buffer)
       ∨ (v = (-1)%Z
          ∧ ∃ n, (n < length buffer)%nat ∧ sent = take n buffer)).
Proof.
  intros Hnonzero Hfuel. unfold write_all.
  destruct (write_all_loop_returns Hnonzero fuel 0 0 []) as [[v sent] Hrun];
    [lia|].
  exists v, sent. split; [done|].
  destruct (write_all_loop_result fuel 0 0 [] v sent) as [Hfail|Hall];
    [by rewrite take_0|done|by right|by left].
Qed.

(** X23: when [write] keeps returning 0 and the buffer is not empty, the
    loop of [write_all] never ends: no number of passes gives a result. *)
Theorem write_all_spins_on_zero_writes (fuel : nat) :
  (∀ k chunk, write k chunk = 0%Z) →
  buffer ≠ [] →
  write_all write fuel buffer = None.
Proof.
  intros Hzero Hbuffer. unfold write_all.
  apply write_all_loop_stuck; [done|].
  destruct buffer; [done|simpl; lia].
Qed.

End WriteAll.

Lemma write_all_writes_the_whole_buffer_witness :
  RoutingMore.write_all RoutingMore.test_write_3 8 RoutingMore.test_buffer
  = Some (8%Z, RoutingMore.test_buffer).
Proof.
  apply (write_all_writes_the_whole_buffer RoutingMore.test_write_3
           RoutingMore.test_buffer 8).
  - intros k [|b chunk] Hchunk; [done|].
    unfold RoutingMore.test_write_3. simpl. lia.
  - simpl. lia.
Defined.

Lemma write_all_returns_all_or_minus_one_witness :
  RoutingMore.write_all RoutingMore.test_write_fails 8
    RoutingMore.test_buffer
  = Some ((-1)%Z, take 6 RoutingMore.test_buffer)
  ∧ ∃ v sent,
      RoutingMore.write_all RoutingMore.test_write_fails 8
        RoutingMore.test_buffer = Some (v, sent)
      ∧ ((v = 8%Z ∧ sent = RoutingMore.test_buffer)
         ∨ (v = (-1)%Z
            ∧ ∃ n, (n < 8)%nat ∧ sent = take n RoutingMore.test_buffer)).
Proof.
  split; [reflexivity|].
  apply (write_all_returns_all_or_minus_one RoutingMore.test_write_fails
           RoutingMore.test_buffer 8).
  - intros k [|b chunk] Hchunk; [done|].
    unfold RoutingMore.test_write_fails.
    destruct (k =? 2)%nat; [done|]. simpl. lia.
  - simpl. lia.
Defined.

Lemma write_all_spins_on_zero_writes_witness :
  RoutingMore.write_all (λ _ _, 0%Z) 1000 RoutingMore.test_buffer = None.
Proof.
  by apply (write_all_spins_on_zero_writes (λ _ _, 0%Z)
              RoutingMore.test_buffer 1000).
Defined.

(* --------------------------------------------------------------------- *)
(** ** The master-key file: what [load] accepts, [add] and [get]          *)
(* --------------------------------------------------------------------- *)

Section MasterKeyMore.
Import Keyring KeyringMore.
Local Open Scope list_scope.

Lemma strncmp_signature (a : bytes) :
  length a = 5%nat →
  strncmp_equal a kMasterKeyFileSignature 5 = true
  ↔ a = kMasterKeyFileSignature.
Proof.
  intros Hlen.
  destruct a as [|b0 [|b1 [|b2 [|b3 [|b4 [|b5 a]]]]]]; try done.
  split; [|by intros ->].
  unfold kMasterKeyFileSignature. cbn [strncmp_equal].
  intros H.
  destruct (Byte.eqb b0 x4d) eqn:E0; [|done].
  apply Byte.byte_dec_bl in E0 as ->.
  change (Byte.eqb x4d x00) with false in H. cbn [andb orb] in H.
  destruct (Byte.eqb b1 x52) eqn:E1; [|done].
  apply Byte.byte_dec_bl in E1 as ->.
  change (Byte.eqb x52 x00) with false in H. cbn [andb orb] in H.
  destruct (Byte.eqb b2 x4b) eqn:E2; [|done].
  apply Byte.byte_dec_bl in E2 as ->.
  change (Byte.eqb x4b x00) with false in H. cbn [andb orb] in H.
  destruct (Byte.eqb b3 x46) eqn:E3; [|done].
  apply Byte.byte_dec_bl in E3 as ->.
  change (Byte.eqb x46 x00) with false in H. cbn [andb orb] in H.
  destruct (Byte.eqb b4 x00) eqn:E4; [|done].
  by apply Byte.byte_dec_bl in E4 as ->.
Qed.

Lemma load_cases path files mode content u :
  files !! path = Some (file mode content) →
  let f := {| rest := content; eofbit := false; failbit := false |} in
  let buf := (read f 5 (resize 5 x00 (buf_before u))).2 in
  (strncmp_equal buf kMasterKeyFileSignature 5 = false
   ∧ load path files u
     = Throw (invalid_master_keyfile
                ("Invalid master key file " ++ path)%string))
  ∨ (strncmp_equal buf kMasterKeyFileSignature 5 = true
     ∧ ∃ r, load_loop (S (length content)) u 0
              (read f 5 (resize 5 x00 (buf_before u))).1 [] = Some r
            ∧ load path files u
              = match r with
                | Ok entries => Ok entries
                | Throw e => Throw (read_error path e)
                end).
Proof.
  intros Hfile. cbv zeta. unfold load. rewrite Hfile.
  pose proof (load_within_bound content u) as [r Hr]. cbv zeta in Hr.
  destruct (read _ 5 _) as [f1 buf]. cbn [fst snd] in *.
  destruct (strncmp_equal buf kMasterKeyFileSignature 5); cbn [negb].
  - right. split; [done|]. exists r. split; [done|]. by rewrite Hr.
  - by left.
Qed.

(** X24: of a file of five bytes or more, [load] looks at the first five:
    it throws [invalid_master_keyfile] exactly when they are not the
    signature [MRKF] and its NUL, whatever follows and whatever the
    uninitialised variables hold. *)
Theorem load_checks_the_signature
    (path : string) (files : gmap string node) (mode : N)
    (content : bytes) (u : indeterminate) :
  files !! path = Some (file mode content) →
  (5 ≤ length content)%nat →
  take 5 content ≠ kMasterKeyFileSignature
  ↔ load path files u
    = Throw (invalid_master_keyfile
               ("Invalid master key file " ++ path)%string).
Proof.
  intros Hfile Hlen.
  pose proof (load_cases path files mode content u Hfile) as Hcases.
  cbv zeta in Hcases. unfold read in Hcases.
  cbn [eofbit failbit rest orb] in Hcases.
  assert ((5 <=? length content)%nat = true) as Hle by by apply Nat.leb_le.
  rewrite Hle in Hcases. cbn [fst snd] in Hcases.
  assert (length (take 5 content) = 5%nat) as Htake
    by (rewrite length_take; lia).
  pose proof (strncmp_signature _ Htake) as Hsig.
  destruct Hcases as [[Hno Hload]|[Hyes (r & _ & Hload)]].
  - split; [done|]. intros _ Heq. apply Hsig in Heq. congruence.
  - split.
    + intros Hne. by apply Hsig in Hyes.
    + rewrite Hload. by destruct r.
Qed.

Lemma load_checks_the_signature_witness :
  load "key" {[ "key" := file owner_only [x4d; x52; x4b; x46; x01; x00] ]}
    (test_indeterminate 0)
  = Throw (invalid_master_keyfile "Invalid master key file key").
Proof.
  apply (load_checks_the_signature "key" _ owner_only
           [x4d; x52; x4b; x46; x01; x00] (test_indeterminate 0)).
  - reflexivity.
  - simpl. lia.
  - discriminate.
Defined.

(** X25: a file of fewer than five bytes is judged by bytes the program
    never wrote: the signature is compared with the content followed by
    what the array [buf] held before.  When that passes, the file loads as
    a key file without entries; otherwise [invalid_master_keyfile] is
    thrown. *)
Theorem load_short_file_reads_stale_bytes
    (path : string) (files : gmap string node) (mode : N)
    (content : bytes) (u : indeterminate) :
  files !! path = Some (file mode content) →
  (length content < 5)%nat →
  let buf := content ++ drop (length content) (resize 5 x00 (buf_before u)) in
  load path files u
  = if bool_decide (buf = kMasterKeyFileSignature) then Ok []
    else Throw (invalid_master_keyfile
                  ("Invalid master key file " ++ path)%string).
Proof.
  intros Hfile Hlen. cbv zeta.
  pose proof (load_cases path files mode content u Hfile) as Hcases.
  cbv zeta in Hcases. unfold read in Hcases.
  cbn [eofbit failbit rest orb] in Hcases.
  assert ((5 <=? length content)%nat = false) as Hle
    by (apply Nat.leb_gt; lia).
  rewrite Hle in Hcases. cbn [fst snd] in Hcases.
  set (buf := content ++ drop (length content) (resize 5 x00 (buf_before u)))
    in *.
  assert (length buf = 5%nat) as Hbuf.
  { unfold buf. rewrite length_app, length_drop, length_resize. lia. }
  pose proof (strncmp_signature _ Hbuf) as Hsig.
  destruct Hcases as [[Hno Hload]|[Hyes (r & Hr & Hload)]].
  - rewrite Hload. rewrite bool_decide_eq_false_2; [done|].
    intros Heq. apply Hsig in Heq. congruence.
  - rewrite load_loop_eof in Hr by done. injection Hr as <-.
    rewrite Hload. rewrite bool_decide_eq_true_2; [done|]. by apply Hsig.
Qed.

Lemma load_short_file_reads_stale_bytes_witness :
  load "key" {[ "key" := file owner_only [x4d; x52; x4b] ]}
    {| buf_before := [x00; x00; x00; x46; x00];
       length_before := λ _, [] |}
  = Ok []
  ∧ load "key" {[ "key" := file owner_only [x4d; x52; x4b] ]}
      {| buf_before := []; length_before := λ _, [] |}
    = Throw (invalid_master_keyfile "Invalid master key file key").
Proof.
  split.
  - rewrite (load_short_file_reads_stale_bytes "key" _ owner_only
               [x4d; x52; x4b]); [reflexivity|reflexivity|simpl; lia].
  - reflexivity.
Defined.

Lemma strlen_take data : x00 ∉ take (strlen data) data.
Proof.
  induction data as [|b data IH]; simpl; [by intros ?%elem_of_nil|].
  destruct (Byte.eqb b x00) eqn:Heq; simpl; [by intros ?%elem_of_nil|].
  apply not_elem_of_cons. split; [|done].
  intros <-. by vm_compute in Heq.
Qed.

Lemma load_loop_names fuel u :
  ∀ k f entries out,
    load_loop fuel u k f entries = Some (Ok out) →
    Forall (λ entry, x00 ∉ entry.1) entries →
    Forall (λ entry, x00 ∉ entry.1) out.
Proof.
  induction fuel as [|fuel IH]; intros k f entries out; cbn [load_loop].
  - destruct (eofbit f); [|done]. by intros [= <-].
  - destruct (eofbit f); [by intros [= <-]|].
    destruct (read f 4 _) as [f1 length_bytes].
    destruct (read f1 _ _) as [f2 data].
    destruct (_ <=? _)%nat; [|done].
    intros Hrun Hentries. apply (IH _ _ _ _ Hrun).
    apply Forall_app. split; [done|].
    apply Forall_singleton. apply strlen_take.
Qed.

(** X26: the loop of [load] ends on every file, within one pass more than
    the file has bytes; and no name that [load] returns holds a NUL, since
    a name ends where the first NUL of its entry is. *)
Theorem load_ends_and_names_hold_no_NUL
    (path : string) (files : gmap string node) (u : indeterminate) :
  load path files u ≠ Throw (runtime_error "load: loop bound exceeded")
  ∧ ∀ entries,
      load path files u = Ok entries →
      Forall (λ entry, x00 ∉ entry.1) entries.
Proof.
  destruct (files !! path) as [[|mode content]|] eqn:Hfile.
  1, 3: unfold load; rewrite Hfile; by split.
  pose proof (load_cases path files mode content u Hfile) as Hcases.
  cbv zeta in Hcases.
  destruct Hcases as [[_ ->]|[_ (r & Hr & ->)]]; [by split|].
  destruct r as [out|e]; (split; [done|]); [|done].
  intros entries [= <-]. by apply (load_loop_names _ _ _ _ _ _ Hr).
Qed.

Lemma load_ends_and_names_hold_no_NUL_witness :
  Forall (λ entry : bytes * bytes, x00 ∉ entry.1)
    [([x6b], [x01]); ([], [x00; x00])].
Proof.
  apply (proj2 (load_ends_and_names_hold_no_NUL "key"
                  {[ "key" := file owner_only
                                (file_layout [([x6b], [x01])]) ]}
                  (test_indeterminate 3))).
  reflexivity.
Defined.

Section Aes.

Variable my_aes_get_size : N → nat.
Variable my_aes_encrypt : bytes → bytes → Z * bytes.
Variable my_aes_decrypt : bytes → bytes → Z * bytes.

Lemma get_loop_skip before entries id key :
  id ∉ before.*1 →
  get_loop my_aes_decrypt (before ++ entries) id key
  = get_loop my_aes_decrypt entries id key.
Proof.
  induction before as [|entry before IH]; intros Hid; [done|].
  rewrite fmap_cons in Hid. apply not_elem_of_cons in Hid as [Hne Hid].
  cbn [app get_loop]. rewrite bool_decide_eq_false_2 by done.
  by apply IH.
Qed.

Lemma as_uint32_span_small s :
  N.of_nat (length s) < UINT_MODULUS → as_uint32_span s = s.
Proof.
  intros Hs. unfold as_uint32_span.
  rewrite N.mod_small by done. rewrite Nat2N.id. by apply take_ge.
Qed.

(** X27: [get] goes by the first entry of the name: the entries after it
    are not looked at, and the string returned has the length of the
    encrypted data of that entry, whatever number of bytes the decryption
    reports; for a name that is not there, the empty string is returned
    and nothing is thrown. *)
Theorem get_goes_by_the_first_entry (m : MasterKeyFile) (id key : bytes) :
  (id ∉ (entries_ m).*1 → get my_aes_decrypt m id key = returned [])
  ∧ ∀ before data after,
      entries_ m = before ++ (id, data) :: after →
      id ∉ before.*1 →
      get my_aes_decrypt m id key
      = get my_aes_decrypt {| path_ := path_ m; entries_ := [(id, data)] |}
          id key
      ∧ ∀ value, get my_aes_decrypt m id key = returned value →
                 length value = length data.
Proof.
  unfold get. split.
  - intros Hid. rewrite <- (app_nil_r (entries_ m)).
    by rewrite get_loop_skip.
  - intros before data after -> Hid. rewrite get_loop_skip by done.
    cbn [entries_ get_loop fst snd]. rewrite bool_decide_eq_true_2 by done.
    split; [done|].
    destruct (my_aes_decrypt _ _) as [decrypted_size out].
    destruct (_ <? 0)%Z; [done|].
    intros value [= <-]. apply length_resize.
Qed.

(** X28: [add] puts the new entry last and [get] goes by the first one:
    when the name is there already, [get] keeps returning what it did
    before the [add]. *)
Theorem add_does_not_replace
    (m m' : MasterKeyFile) (id value key key' : bytes) :
  id ∈ (entries_ m).*1 →
  add my_aes_get_size my_aes_encrypt m id value key = Ok m' →
  get my_aes_decrypt m' id key' = get my_aes_decrypt m id key'.
Proof.
  intros Hid Hadd. unfold add in Hadd.
  destruct (my_aes_encrypt _ _) as [encrypted_size out].
  destruct (_ <? 0)%Z; [done|]. injection Hadd as <-.
  unfold get. cbn [entries_].
  induction (entries_ m) as [|entry entries IH].
  - by apply elem_of_nil in Hid.
  - cbn [app get_loop]. destruct (bool_decide (entry.1 = id)) eqn:Hentry;
      [done|].
    apply IH. rewrite fmap_cons in Hid.
    apply elem_of_cons in Hid as [->|Hid]; [|done].
    by rewrite bool_decide_eq_true_2 in Hentry.
Qed.

(** X29: with a cipher that decrypts what it encrypted, [get] after [add]
    of a new name finds the value, but returns it in a string as long as
    the encrypted data: the value followed by NULs.  Where the cipher pads,
    [get] does not return the value that was added. *)
Theorem get_after_add_pads_the_value
    (m : MasterKeyFile) (id value key encrypted : bytes) :
  (∀ source key' n out,
     my_aes_encrypt source key' = (n, out) → (0 ≤ n)%Z →
     Z.to_nat n = length out
     ∧ (length out ≤ my_aes_get_size (N.of_nat (length source)))%nat
     ∧ my_aes_decrypt out key' = (Z.of_nat (length source), source)) →
  N.of_nat (length value) < UINT_MODULUS →
  N.of_nat (length key) < UINT_MODULUS →
  N.of_nat (length encrypted) < UINT_MODULUS →
  id ∉ (entries_ m).*1 →
  my_aes_encrypt value key = (Z.of_nat (length encrypted), encrypted) →
  let m' := {| path_ := path_ m;
               entries_ := entries_ m ++ [(id, encrypted)] |} in
  add my_aes_get_size my_aes_encrypt m id value key = Ok m'
  ∧ get my_aes_decrypt m' id key
    = returned (resize (length encrypted) x00 value)
  ∧ ((length value < length encrypted)%nat →
     get my_aes_decrypt m' id key ≠ returned value).
Proof.
  intros Hcipher Hvalue Hkey Hencrypted Hid Hrun. cbv zeta.
  destruct (Hcipher _ _ _ _ Hrun ltac:(lia)) as (_ & Hsize & Hback).
  assert (add my_aes_get_size my_aes_encrypt m id value key
          = Ok {| path_ := path_ m;
                  entries_ := entries_ m ++ [(id, encrypted)] |}) as Hadd.
  { unfold add. rewrite !as_uint32_span_small, Hrun by done.
    rewrite (N.mod_small _ _ Hvalue).
    assert ((Z.of_nat (length encrypted) <? 0)%Z = false) as ->
      by (apply Z.ltb_ge; lia).
    rewrite Nat2Z.id, resize_resize by done. by rewrite resize_all. }
  assert (get my_aes_decrypt
            {| path_ := path_ m;
               entries_ := entries_ m ++ [(id, encrypted)] |} id key
          = returned (resize (length encrypted) x00 value)) as Hget.
  { unfold get. cbn [entries_]. rewrite get_loop_skip by done.
    cbn [get_loop fst snd]. rewrite bool_decide_eq_true_2 by done.
    rewrite !as_uint32_span_small, Hback by done.
    assert ((Z.of_nat (length value) <? 0)%Z = false) as ->
      by (apply Z.ltb_ge; lia).
    done. }
  split; [done|]. split; [done|].
  intros Hpad. rewrite Hget. intros [= Heq].
  apply (f_equal length) in Heq. rewrite length_resize in Heq. lia.
Qed.

End Aes.

Lemma get_goes_by_the_first_entry_witness :
  get test_aes_decrypt
    {| path_ := "key"; entries_ := [([x6b], [x02; x01])] |} [x6c] []
  = returned [].
Proof.
  apply (proj1 (get_goes_by_the_first_entry test_aes_decrypt
                  {| path_ := "key"; entries_ := [([x6b], [x02; x01])] |}
                  [x6c] [])).
  simpl. by intros [?|?%elem_of_nil]%elem_of_cons.
Defined.

Lemma test_aes_round_trip source key' n out :
  test_aes_encrypt source key' = (n, out) → (0 ≤ n)%Z →
  Z.to_nat n = length out
  ∧ (length out ≤ test_aes_get_size (N.of_nat (length source)))%nat
  ∧ test_aes_decrypt out key' = (Z.of_nat (length source), source).
Proof.
  unfold test_aes_encrypt, test_aes_decrypt, test_aes_get_size.
  intros [= <- <-] _. rewrite length_app, length_rev. simpl.
  split; [lia|]. split; [lia|].
  destruct (rev source ++ [x01]) as [|b l] eqn:Hout.
  { by apply app_eq_nil in Hout as [_ ?]. }
  rewrite <- Hout, removelast_last, rev_involutive.
  do 2 f_equal. lia.
Qed.

Lemma add_does_not_replace_witness :
  get test_aes_decrypt
    {| path_ := "key";
       entries_ := [([x6b], [x02; x01]); ([x6b], [x03; x01])] |} [x6b] []
  = returned [x02; x00].
Proof.
  rewrite (add_does_not_replace test_aes_get_size test_aes_encrypt
             test_aes_decrypt
             {| path_ := "key"; entries_ := [([x6b], [x02; x01])] |}
             _ [x6b] [x03] [] []); [reflexivity| |reflexivity].
  apply list_elem_of_here.
Defined.

Lemma get_after_add_pads_the_value_witness :
  get test_aes_decrypt
    {| path_ := "key"; entries_ := [([x6b], [x03; x02; x01])] |} [x6b] []
  = returned [x02; x03; x00].
Proof.
  apply (get_after_add_pads_the_value test_aes_get_size test_aes_encrypt
           test_aes_decrypt {| path_ := "key"; entries_ := [] |}
           [x6b] [x02; x03] [] [x03; x02; x01]).
  - apply test_aes_round_trip.
  - reflexivity.
  - reflexivity.
  - reflexivity.
  - apply not_elem_of_nil.
  - reflexivity.
Defined.

End MasterKeyMore.

(* --------------------------------------------------------------------- *)
(** ** Passwords: what they are made of                                   *)
(* --------------------------------------------------------------------- *)

Section PasswordsMore.

Variable A : AlphabetContent.
Variable outcome : nat → N.
Variable rand : nat → N.

Lemma get_alphabet_classes alphabet_mask c :
  c ∈ get_alphabet A alphabet_mask →
  is_digit c || is_lowercase c || is_uppercase c || is_special c = true.
Proof.
  assert (forallb (λ c, is_digit c || is_lowercase c || is_uppercase c
                        || is_special c)
            (kAlphabetDigits ++ kAlphabetLowercase ++ kAlphabetUppercase
             ++ kAlphabetSpecial)%list = true) as Hall by reflexivity.
  rewrite forallb_forall in Hall.
  intros Hc. apply Hall, list_elem_of_In. unfold get_alphabet in Hc.
  rewrite !elem_of_app in *.
  destruct Hc as [Hc|[Hc|[Hc|Hc]]];
    [destruct (has_flag alphabet_mask (AlphabetDigits A))
    |destruct (has_flag alphabet_mask (AlphabetLowercase A))
    |destruct (has_flag alphabet_mask (AlphabetUppercase A))
    |destruct (has_flag alphabet_mask (AlphabetSpecial A))];
    try (by apply elem_of_nil in Hc); tauto.
Qed.

(** X30: whatever the distribution and [std::rand] hand out, a request
    for at least eight characters returns a password every character of
    which is a digit, a lowercase letter, an uppercase letter or one of the
    special characters: none comes from elsewhere. *)
Theorem strong_password_is_made_of_the_alphabets (n pos : nat) :
  flags_ok A = true →
  (8 ≤ n)%nat →
  ∃ password pos',
    generate_strong_password A outcome rand n pos = Ok (password, pos')
    ∧ Forall (λ c, is_digit c || is_lowercase c || is_uppercase c
                   || is_special c = true) password.
Proof.
  intros A_ok Hn. unfold generate_strong_password, kMinPasswordLength.
  assert ((n <? 8)%nat = false) as -> by by apply Nat.ltb_ge.
  destruct (flags_single A A_ok) as (HD & HL & HU & HS & Hall).
  destruct (generate_identifier_spec A outcome 1 (AlphabetDigits A) pos)
    as (d & -> & Hd & Hdin); [by rewrite HD|]. cbn [bind].
  destruct (generate_identifier_spec A outcome 1 (AlphabetLowercase A)
              (pos + 1))
    as (l & -> & Hl & Hlin); [by rewrite HL|]. cbn [bind].
  destruct (generate_identifier_spec A outcome 1 (AlphabetUppercase A)
              (pos + 1 + 1))
    as (u & -> & Hu & Huin); [by rewrite HU|]. cbn [bind].
  destruct (generate_identifier_spec A outcome 1 (AlphabetSpecial A)
              (pos + 1 + 1 + 1))
    as (s & -> & Hs & Hsin); [by rewrite HS|]. cbn [bind]. cbv zeta.
  destruct (generate_identifier_spec A outcome
              (n - length (d ++ l ++ u ++ s)%list) (AlphabetAll A)
              (pos + 1 + 1 + 1 + 1))
    as (r & -> & Hr & Hrin); [done|]. cbn [bind].
  eexists _, _. split; [done|].
  rewrite random_shuffle_Permutation.
  rewrite !Forall_app. repeat split.
  all: eapply Forall_impl; [eassumption|].
  all: intros c Hc; by apply get_alphabet_classes in Hc.
Qed.

End PasswordsMore.

Lemma strong_password_is_made_of_the_alphabets_witness :
  ∃ password pos',
    generate_strong_password upstream_flags test_outcome test_rand 8 0
    = Ok (password, pos')
    ∧ Forall (λ c, is_digit c || is_lowercase c || is_uppercase c
                   || is_special c = true) password.
Proof.
  apply (strong_password_is_made_of_the_alphabets upstream_flags test_outcome
           test_rand 8 0).
  - reflexivity.
  - lia.
Defined.
